(** * Test-explorer projection, collapse-state lookup and tunnel service

    A shallow embedding of
    - [isCollapsedInSerializedTestTree] (testing explorer, collapse state),
    - [ExtHostTunnelService.$closeTunnel] and [loadListeningPorts]
      (src/vs/workbench/api/node/extHostTunnelService.ts),
    - the hierarchical-by-location projection exercised by
      hierarchalByLocation.test.ts.

    JavaScript strings are modelled as [string]: one [ascii] per code unit,
    which is exact for strings whose code units are below 256.

    Part I holds the definitions, Part II the theorems. *)

From Stdlib Require Import ZArith List Ascii String Bool Lia OrderedTypeEx DecimalString DecimalNat.
From stdpp Require Import gmap strings list fin_maps sorting.

Set Warnings "-register-all,-notation-for-abbreviation".

(* ===================================================================== *)
(** * Part I: definitions *)
(* ===================================================================== *)

(** ** JavaScript built-ins used by the sources *)

Module JS.

(** [s.split(sep)] for a one-character separator: the pieces between the
    occurrences of [sep]; never the empty list. *)
Fixpoint split (sep : ascii) (s : string) : list string :=
  match s with
  | EmptyString => [EmptyString]
  | String c rest =>
    if Ascii.eqb c sep then EmptyString :: split sep rest
    else match split sep rest with
         | seg :: segs => String c seg :: segs
         | [] => [String c EmptyString]
         end
  end.

(** White space and line terminators among the code units below 256:
    TAB, LF, VT, FF, CR, SP and NBSP. *)
Definition isWhiteSpace (c : ascii) : bool :=
  let n := nat_of_ascii c in
  ((9 <=? n) && (n <=? 13) || (n =? 32) || (n =? 160))%nat.

Fixpoint trimStart (s : string) : string :=
  match s with
  | String c rest => if isWhiteSpace c then trimStart rest else s
  | EmptyString => EmptyString
  end.

(** The value of a digit character in radixes up to 36. *)
Definition digitValue (c : ascii) : option Z :=
  let n := Z.of_nat (nat_of_ascii c) in
  if ((48 <=? n) && (n <=? 57))%Z then Some (n - 48)%Z
  else if ((97 <=? n) && (n <=? 122))%Z then Some (n - 87)%Z
  else if ((65 <=? n) && (n <=? 90))%Z then Some (n - 55)%Z
  else None.

(** The mathematical value of the longest prefix of [s] made of radix-[R]
    digits; [acc] is the value read so far, [None] while no digit was read. *)
Fixpoint parseDigits (R : Z) (s : string) (acc : option Z) : option Z :=
  match s with
  | EmptyString => acc
  | String c rest =>
    match digitValue c with
    | Some d =>
      if (d <? R)%Z
      then parseDigits R rest
             (Some (match acc with Some a => (a * R + d)%Z | None => d end))
      else acc
    | None => acc
    end
  end.

Definition stripHexPrefix (s : string) : string :=
  match s with
  | String "0" (String "x" rest) => rest
  | String "0" (String "X" rest) => rest
  | _ => s
  end.

Section ParseInt.
(** The Number values other than NaN, and the conversion of a mathematical
    integer to the Number nearest to it (the identity on integers of
    magnitude up to 2^53).  Nothing below depends on how it rounds. *)
Context {number : Type} (toNumber : Z -> number).

(** [parseInt(string, radix)]; [None] as argument is [undefined], which is
    converted to the string "undefined"; [None] as result is NaN. *)
Definition parseInt (input : option string) (radix : Z) : option number :=
  let inputString := match input with Some s => s | None => "undefined"%string end in
  let trimmed := trimStart inputString in
  let '(sign, body) := match trimmed with
                       | String "-" rest => ((-1)%Z, rest)
                       | String "+" rest => (1%Z, rest)
                       | _ => (1%Z, trimmed)
                       end in
  if (radix =? 0)%Z then
    let hex := negb (String.eqb (stripHexPrefix body) body) in
    (fun mv => toNumber (sign * mv)%Z)
      <$> parseDigits (if hex then 16 else 10) (stripHexPrefix body) None
  else if ((radix <? 2) || (36 <? radix))%Z then None
  else
    let digits := if (radix =? 16)%Z then stripHexPrefix body else body in
    (fun mv => toNumber (sign * mv)%Z) <$> parseDigits radix digits None.
End ParseInt.

(** A [Map] keeps its keys in the order of their first insertion; setting
    an existing key replaces the value in place. *)
Fixpoint mapSet {K V : Type} `{EqDecision K} (k : K) (v : V)
    (m : list (K * V)) : list (K * V) :=
  match m with
  | [] => [(k, v)]
  | (k', v') :: rest =>
    if decide (k = k') then (k, v) :: rest else (k', v') :: mapSet k v rest
  end.

(** [new Map(entries)] *)
Definition newMap {K V : Type} `{EqDecision K} (entries : list (K * V))
  : list (K * V) :=
  fold_left (fun m kv => mapSet (fst kv) (snd kv) m) entries [].

(** [[...map.values()]] *)
Definition values {K V : Type} (m : list (K * V)) : list V := map snd m.

End JS.

(** ** Test identifiers *)

Module TestId.

(** A test id is the sequence of its path segments: the controller id
    first, then the local ids of the nested items. *)
Notation t := (list string) (only parsing).

Section Serialization.
(** Modelled from the spec: testId.ts is not part of the sources.  The
    spec says an id "serializes to and parses from a single string with a
    reserved separator"; the separator is kept as a parameter. *)
Variable delimiter : ascii.

(** [idString.split(delimiter)] *)
Definition fromString (s : string) : t := JS.split delimiter s.

(** [path.join(delimiter)] *)
Definition toString (id : t) : string :=
  String.concat (String delimiter EmptyString) id.
End Serialization.

Definition isRoot (id : t) : bool := Nat.eqb (length id) 1.

(** The parent's path is the child's path without its last segment; a
    root (one segment) has no parent. *)
Definition parentId (id : t) : option t :=
  if Nat.ltb 1 (length id) then Some (removelast id) else None.

End TestId.

(** ** Serialized collapse state *)

Module CollapseState.

(** [interface ISerializedTestTreeCollapseState]: both fields optional,
    [None] is JavaScript's [undefined].  A children object is given by its
    own properties; it is a plain object, as [JSON.parse] and object
    literals build it, so that what it does not have itself it inherits
    from [Object.prototype]. *)
Inductive ISerializedTestTreeCollapseState : Type :=
  mkState {
    collapsed : option bool;
    children : option (gmap string ISerializedTestTreeCollapseState) }.

(** What a call does: it throws a TypeError, or it returns a value, where
    [None] is [undefined]. *)
Inductive Outcome : Type :=
| Throws
| Returns (value : option bool).

(** [m.hasOwnProperty] is looked up on the children object itself first:
    an own property named "hasOwnProperty" (the state of a test with that
    local id) is found before the method of [Object.prototype], and
    calling it throws, since a state is not a function. *)
Definition shadowsHasOwnProperty
    (m : gmap string ISerializedTestTreeCollapseState) : bool :=
  bool_decide (is_Some (m !! "hasOwnProperty"%string)).

(** The loop [for (const part of id.path)]. *)
Fixpoint walk (node : ISerializedTestTreeCollapseState) (path : list string)
  : Outcome :=
  match path with
  | [] => Returns (collapsed node)
  | part :: rest =>
    match children node with
    | None => Returns None              (* children?. short-circuits *)
    | Some m =>
      if shadowsHasOwnProperty m then Throws
      else
        match m !! part with
        | None => Returns None          (* !hasOwnProperty(part) *)
        | Some child => walk child rest (* node = node.children[part] *)
        end
    end
  end.

(** [isCollapsedInSerializedTestTree(serialized, id)]; [id] is a [TestId]
    ([inl]) or a string ([inr]) that is parsed first. *)
Definition isCollapsedInSerializedTestTree (delimiter : ascii)
    (serialized : ISerializedTestTreeCollapseState)
    (id : TestId.t + string) : Outcome :=
  let id' := match id with
             | inl tid => tid
             | inr s => TestId.fromString delimiter s
             end in
  walk serialized id'.

(** The children object of [n] can be asked for its own properties: it
    exists and no test state hides its [hasOwnProperty]. *)
Definition askable (n : ISerializedTestTreeCollapseState)
    (m : gmap string ISerializedTestTreeCollapseState) : Prop :=
  children n = Some m /\ m !! "hasOwnProperty"%string = None.

(** [Reaches n path target]: every segment of [path] is present in the
    nested children maps below [n], each of which can be asked, and
    following them ends at [target]. *)
Inductive Reaches : ISerializedTestTreeCollapseState -> list string ->
                    ISerializedTestTreeCollapseState -> Prop :=
| Reaches_here n : Reaches n [] n
| Reaches_step n m part child rest target :
    askable n m -> m !! part = Some child ->
    Reaches child rest target -> Reaches n (part :: rest) target.

(** The node reached so far has no children map, or its children map can
    be asked and has no entry for the segment. *)
Definition lacks (n : ISerializedTestTreeCollapseState) (part : string) : Prop :=
  children n = None \/ exists m, askable n m /\ m !! part = None.

(** The children map of the node has a test named "hasOwnProperty". *)
Definition shadowed (n : ISerializedTestTreeCollapseState) : Prop :=
  exists m, children n = Some m /\ is_Some (m !! "hasOwnProperty"%string).

(** Some segment of [path] is absent on the way down from [n]. *)
Definition SegmentAbsent (n : ISerializedTestTreeCollapseState)
    (path : list string) : Prop :=
  exists pre part post reached,
    path = pre ++ part :: post /\ Reaches n pre reached /\ lacks reached part.

(** On the way down from [n], a segment of [path] is looked up in a
    children map that has a test named "hasOwnProperty". *)
Definition SegmentShadowed (n : ISerializedTestTreeCollapseState)
    (path : list string) : Prop :=
  exists pre part post reached,
    path = pre ++ part :: post /\ Reaches n pre reached /\ shadowed reached.

End CollapseState.

(** ** Extension-host tunnel service *)

Module ExtHostTunnelService.

(** [remote: { port: number; host: string }]; ports are integers. *)
Record Remote := mkRemote { host : string; port : Z }.

(** A [vscode.Tunnel] object. *)
Record Tunnel := mkTunnel { remote : Remote; localAddress : string }.

(** The part of the service [$closeTunnel] touches: the map
    [_extensionTunnels: Map<string, Map<number, vscode.Tunnel>>], and the
    calls of [dispose()] made on tunnels so far, oldest first. *)
Record Service := mkService {
  _extensionTunnels : gmap string (gmap Z Tunnel);
  disposed : list Tunnel }.

(** [async $closeTunnel(remote)] *)
Definition closeTunnel (r : Remote) (svc : Service) : Service :=
  match _extensionTunnels svc !! host r with
  | Some hostMap =>
    match hostMap !! port r with
    | Some tunnel =>
      {| _extensionTunnels :=
           <[host r := delete (port r) hostMap]> (_extensionTunnels svc);
         disposed := disposed svc ++ [tunnel] |}
    | None => svc
    end
  | None => svc
  end.

(** [this._extensionTunnels.get(host)?.get(port)] *)
Definition tunnelAt (svc : Service) (h : string) (p : Z) : option Tunnel :=
  match _extensionTunnels svc !! h with
  | Some hostMap => hostMap !! p
  | None => None
  end.

End ExtHostTunnelService.

Module ListeningPorts.

Section WithNumber.
Context {number : Type} `{EqDecision number} (toNumber : Z -> number).

(** A row of a connection table, [Record<string, string>]. *)
Definition Row : Type := gmap string string.

(** [{ socket: number, ip: string, port: number }]; [None] is NaN. *)
Record Connection := mkConnection {
  socket : option number;
  ip : string;
  port : option number }.

(** The callback of the first [map]; [None] is the TypeError thrown by
    [row.local_address.split] when the row has no [local_address]. *)
Definition toConnection (row : Row) : option Connection :=
  match row !! "local_address"%string with
  | None => None
  | Some local_address =>
    let address := JS.split ":" local_address in
    Some {| socket := JS.parseInt toNumber (row !! "inode"%string) 10;
            ip := hd EmptyString address;
            port := JS.parseInt toNumber (nth_error address 1) 16 |}
  end.

Definition isListening (row : Row) : bool :=
  bool_decide (row !! "st"%string = Some "0A"%string).

(** [table.filter(row => row.st === '0A')] *)
Definition listeningRows (tables : list (list Row)) : list Row :=
  List.filter isListening (concat tables).

(** [loadListeningPorts], on the tables [stdouts.map(this.loadConnectionTable)];
    [None] when the TypeError above is thrown. *)
Definition loadListeningPorts (tables : list (list Row)) : option (list Connection) :=
  match mapM toConnection (listeningRows tables) with
  | None => None
  | Some conns => Some (JS.values (JS.newMap (map (fun c => (port c, c)) conns)))
  end.

(** [c] is the entry of a row of [rows] that no later row of [rows] shares
    its port with. *)
Definition lastOfItsPort (rows : list Row) (c : Connection) : Prop :=
  exists rows1 row rows2,
    rows = rows1 ++ row :: rows2 /\
    toConnection row = Some c /\
    forall row' c', row' ∈ rows2 -> toConnection row' = Some c' ->
                    port c' <> port c.

End WithNumber.

End ListeningPorts.

(** ** Hierarchical-by-location projection *)

Module Projection.

(** Modelled from the spec: the class [HierarchicalByLocationProjection]
    (hierarchalByLocation.ts), the tree control and the test harness are
    not part of the sources; only the test suite that drives them is.  The
    model follows sections 3 and 4 of the specification (Node Store, Diff
    Applier, State Propagation, Projection Bridge) and the expectations of
    hierarchalByLocation.test.ts where the specification is silent: a
    single root controller is not rendered itself, its children are
    (test "renders initial tree" against "updates render if second test
    provider appears"), and a state notification that moves an item to the
    unset state is replaced by the record the result lookup holds for that
    item (test "applies state changes"). *)
Inductive TestResultState : Set :=
  Unset | Queued | Running | Passed | Failed | Errored | Skipped.

(** Modelled from the spec: "tri-state (collapsed / expanded /
    not-expandable)". *)
Inductive ExpandState : Set := NotExpandable | Collapsed | Expanded.

#[export] Instance TestResultState_eq_dec : EqDecision TestResultState.
Proof. solve_decision. Defined.

#[export] Instance ExpandState_eq_dec : EqDecision ExpandState.
Proof. solve_decision. Defined.

(** Modelled from the spec: a TestNode of section 3; the node's id is its
    key in the store. *)
Record TestNode := mkNode {
  label : string;
  sortText : option string;
  error : option string;
  expanded : ExpandState;
  ownState : TestResultState;
  computedState : TestResultState;
  children : list TestId.t }.

#[export] Instance TestNode_eq_dec : EqDecision TestNode.
Proof. solve_decision. Defined.

(** Modelled from the spec: the Node Store, "in-memory map from identifier
    to tree node, each node owning an ordered list of child identifiers",
    with the roots "tracked in a top-level ordered set". *)
Record Store := mkStore {
  items : gmap TestId.t TestNode;
  roots : list TestId.t }.

Definition emptyStore : Store := {| items := ∅; roots := [] |}.

Definition setChildren (cs : list TestId.t) (n : TestNode) : TestNode :=
  {| label := label n; sortText := sortText n; error := error n;
     expanded := expanded n; ownState := ownState n;
     computedState := computedState n; children := cs |}.

Definition setExpanded (e : ExpandState) (n : TestNode) : TestNode :=
  {| label := label n; sortText := sortText n; error := error n;
     expanded := e; ownState := ownState n;
     computedState := computedState n; children := children n |}.

Definition setComputed (c : TestResultState) (n : TestNode) : TestNode :=
  {| label := label n; sortText := sortText n; error := error n;
     expanded := expanded n; ownState := ownState n;
     computedState := c; children := children n |}.

Definition setStates (o c : TestResultState) (n : TestNode) : TestNode :=
  {| label := label n; sortText := sortText n; error := error n;
     expanded := expanded n; ownState := o;
     computedState := c; children := children n |}.

(** *** Sort order *)

(** Modelled from the spec: "compare sortText lexicographically if both
    siblings define it; else compare label lexicographically". *)
Definition compareNodes (a b : TestNode) : comparison :=
  match sortText a, sortText b with
  | Some x, Some y => String.compare x y
  | _, _ => String.compare (label a) (label b)
  end.

Definition compareIds (m : gmap TestId.t TestNode) (x y : TestId.t) : comparison :=
  match m !! x, m !! y with
  | Some a, Some b => compareNodes a b
  | _, _ => Eq
  end.

Section Sorting.
Context {A : Type} (cmp : A -> A -> comparison).

(** Modelled from the spec: insertion "at the sort-correct position": before
    the first sibling that compares greater, hence after the siblings it
    ties with ("ties broken by insertion order"). *)
Fixpoint insertSorted (x : A) (l : list A) : list A :=
  match l with
  | [] => [x]
  | y :: rest =>
    match cmp x y with
    | Lt => x :: l
    | _ => y :: insertSorted x rest
    end
  end.

(** Modelled from the spec: the "stable sort" that is "re-applied on every
    Update touching the sort key": the elements are inserted one by one in
    their prior order. *)
Definition stableSort (l : list A) : list A :=
  fold_left (fun acc x => insertSorted x acc) l [].
End Sorting.

(** *** Diff operations *)

(** The attributes an Add carries. *)
Record TestItem := mkItem {
  item_label : string;
  item_sortText : option string;
  item_error : option string }.

(** The partial attributes an Update carries: [None] leaves the attribute
    as it is, [Some None] is a key present with the value [undefined]. *)
Record ItemUpdate := mkUpdate {
  upd_label : option string;
  upd_sortText : option (option string);
  upd_error : option (option string) }.

Inductive TestsDiffOp : Type :=
| Add (id : TestId.t) (expand : ExpandState) (item : TestItem)
| Update (id : TestId.t) (item : ItemUpdate)
| Remove (id : TestId.t).

(** The result lookup, [getStateById]: own and computed state on record. *)
Definition ResultLookup : Type :=
  TestId.t -> option (TestResultState * TestResultState).

Definition newNode (getStateById : ResultLookup) (id : TestId.t)
    (expand : ExpandState) (item : TestItem) : TestNode :=
  let st := default (Unset, Unset) (getStateById id) in
  {| label := item_label item; sortText := item_sortText item;
     error := item_error item; expanded := expand;
     ownState := fst st; computedState := snd st; children := [] |}.

Definition patch (u : ItemUpdate) (n : TestNode) : TestNode :=
  {| label := default (label n) (upd_label u);
     sortText := default (sortText n) (upd_sortText u);
     error := default (error n) (upd_error u);
     expanded := expanded n; ownState := ownState n;
     computedState := computedState n; children := children n |}.

Definition sortKeyChanged (old new : TestNode) : bool :=
  negb (bool_decide (label old = label new /\ sortText old = sortText new)).

(** Re-sort the sibling list that holds [id]: the children of its parent,
    or the roots. *)
Definition resortSiblings (id : TestId.t) (s : Store) : Store :=
  match TestId.parentId id with
  | Some p =>
    match items s !! p with
    | Some pn =>
      {| items := <[p := setChildren
                           (stableSort (compareIds (items s)) (children pn)) pn]>
                    (items s);
         roots := roots s |}
    | None => s
    end
  | None =>
    {| items := items s;
       roots := stableSort (compareIds (items s)) (roots s) |}
  end.

(** Modelled from the spec: Update "mutates label/sortText/error"; "if
    sortText or label changed, the node is removed from its current
    sibling position and reinserted at the sort-correct position". *)
Definition applyUpdate (id : TestId.t) (u : ItemUpdate) (s : Store) : Store :=
  match items s !! id with
  | None => s
  | Some n =>
    let n' := patch u n in
    let s' := {| items := <[id := n']> (items s); roots := roots s |} in
    if sortKeyChanged n n' then resortSiblings id s' else s'
  end.

Definition markExpandable (n : TestNode) : TestNode :=
  match expanded n with
  | NotExpandable => setExpanded Collapsed n
  | _ => n
  end.

(** Modelled from the spec: Add "creates the node; inserts its id into the
    parent's children at the sort-correct position"; it is a no-op "if the
    referenced parent does not exist and the id is not a root"; on an id
    that exists already it updates the attributes ("upsert"). *)
Definition applyAdd (getStateById : ResultLookup) (id : TestId.t)
    (expand : ExpandState) (item : TestItem) (s : Store) : Store :=
  match items s !! id with
  | Some _ =>
    applyUpdate id {| upd_label := Some (item_label item);
                      upd_sortText := Some (item_sortText item);
                      upd_error := Some (item_error item) |} s
  | None =>
    let n := newNode getStateById id expand item in
    let m := <[id := n]> (items s) in
    if TestId.isRoot id
    then {| items := m; roots := insertSorted (compareIds m) id (roots s) |}
    else
      match TestId.parentId id with
      | None => s
      | Some p =>
        match items s !! p with
        | None => s
        | Some pn =>
          {| items := <[p := setChildren
                               (insertSorted (compareIds m) id (children pn))
                               (markExpandable pn)]> m;
             roots := roots s |}
        end
      end
  end.

(** The longest key of the store bounds the depth of every subtree; it
    serves as the recursion budget of the traversals below. *)
Definition maxDepth (m : gmap TestId.t TestNode) : nat :=
  max_list (length <$> elements (dom m)).

(** Modelled from the spec: "removes the node and all descendants,
    recursively, bottom-up": the children first, then the node. *)
Fixpoint removeSubtree (fuel : nat) (m : gmap TestId.t TestNode) (id : TestId.t)
  : gmap TestId.t TestNode :=
  match fuel with
  | O => m
  | S fuel' =>
    match m !! id with
    | None => m
    | Some n => delete id (fold_left (removeSubtree fuel') (children n) m)
    end
  end.

Definition without (id : TestId.t) (l : list TestId.t) : list TestId.t :=
  List.filter (fun c => negb (bool_decide (c = id))) l.

(** Modelled from the spec: Remove "deletes the subtree; if the removed
    node's parent becomes childless, the parent's expandable flag is
    cleared". *)
Definition applyRemove (id : TestId.t) (s : Store) : Store :=
  match items s !! id with
  | None => s
  | Some _ =>
    let m := removeSubtree (S (maxDepth (items s))) (items s) id in
    let m' :=
      match TestId.parentId id with
      | Some p =>
        match m !! p with
        | Some pn =>
          let cs := without id (children pn) in
          <[p := setChildren cs
                   (match cs with [] => setExpanded NotExpandable pn | _ => pn end)]> m
        | None => m
        end
      | None => m
      end in
    {| items := m'; roots := without id (roots s) |}
  end.

Definition applyOp (getStateById : ResultLookup) (op : TestsDiffOp) (s : Store) : Store :=
  match op with
  | Add id expand item => applyAdd getStateById id expand item s
  | Update id u => applyUpdate id u s
  | Remove id => applyRemove id s
  end.

Definition isAdd (op : TestsDiffOp) : bool :=
  match op with Add _ _ _ => true | _ => false end.
Definition isUpdate (op : TestsDiffOp) : bool :=
  match op with Update _ _ => true | _ => false end.
Definition isRemove (op : TestsDiffOp) : bool :=
  match op with Remove _ => true | _ => false end.

(** Modelled from the spec: a batch is processed "by first applying all
    Adds, then all Updates, then all Removes". *)
Definition applyBatch (getStateById : ResultLookup) (batch : list TestsDiffOp)
    (s : Store) : Store :=
  let run ops s := fold_left (fun acc op => applyOp getStateById op acc) ops s in
  run (List.filter isRemove batch)
    (run (List.filter isUpdate batch)
       (run (List.filter isAdd batch) s)).

(** *** State propagation *)

Fixpoint ancestorsFrom (k : nat) (id : TestId.t) : list TestId.t :=
  match k with
  | O => []
  | S k' =>
    match TestId.parentId id with
    | Some p => p :: ancestorsFrom k' p
    | None => []
    end
  end.

(** The proper ancestors of [id], nearest first. *)
Definition ancestors (id : TestId.t) : list TestId.t :=
  ancestorsFrom (length id) id.

Section States.
(** Modelled from the spec: the host's state-priority table is not part of
    the sources; the rollup takes "the worst (most failure-indicating)
    state" under it. *)
Variable statePriority : TestResultState -> nat.

Definition worst (a b : TestResultState) : TestResultState :=
  if Nat.ltb (statePriority a) (statePriority b) then b else a.

Definition computedOf (m : gmap TestId.t TestNode) (c : TestId.t) : TestResultState :=
  match m !! c with
  | Some n => computedState n
  | None => Unset
  end.

(** Modelled from the spec: "the rollup of its own last state and its
    children's computed states". *)
Definition rollup (m : gmap TestId.t TestNode) (n : TestNode) : TestResultState :=
  fold_left worst (map (computedOf m) (children n)) (ownState n).

(** Modelled from the spec: "walks ancestors recomputing each ancestor's
    computedState ..., stopping the walk early once an ancestor's computed
    state is unchanged by the recomputation". *)
Fixpoint refreshComputedState (m : gmap TestId.t TestNode)
    (ancs : list TestId.t) : gmap TestId.t TestNode :=
  match ancs with
  | [] => m
  | a :: rest =>
    match m !! a with
    | None => m
    | Some n =>
      let c := rollup m n in
      if decide (c = computedState n) then m
      else refreshComputedState (<[a := setComputed c n]> m) rest
    end
  end.

(** The states a notification brings: those it carries, or, when it moves
    the item to the unset state, those the result lookup has on record. *)
Definition effectiveState (getStateById : ResultLookup) (id : TestId.t)
    (own computed : TestResultState) : TestResultState * TestResultState :=
  match own with
  | Unset => default (own, computed) (getStateById id)
  | _ => (own, computed)
  end.

(** Modelled from the spec: a state notification "updates only that
    node's ownState/computedState, then walks ancestors"; a notification for
    an unknown id is ignored. *)
Definition applyStateChange (getStateById : ResultLookup) (id : TestId.t)
    (own computed : TestResultState) (s : Store) : Store :=
  let st := effectiveState getStateById id own computed in
  match items s !! id with
  | None => s
  | Some n =>
    {| items := refreshComputedState
                  (<[id := setStates (fst st) (snd st) n]> (items s))
                  (ancestors id);
       roots := roots s |}
  end.
End States.

(** *** Rendering *)

(** The elements of the rendered tree: a test item, or the synthetic leaf
    that carries the error text of its parent. *)
Inductive Element : Type :=
| TestElement (id : TestId.t)
| ErrorElement (parent : TestId.t) (message : string).

(** What the tree control shows: the element, its label ([e]), its state
    ([data], absent for the synthetic leaf) and its rendered children. *)
Inductive Rendered : Type :=
| RNode (element : Element) (e : string) (data : option TestResultState)
        (kids : list Rendered).

(** Modelled from the spec: the error pseudo-child "is synthesized whenever
    a node's error attribute is non-empty" and is "always sorted before all
    real children". *)
Definition errorLeaf (id : TestId.t) (n : TestNode) : list Rendered :=
  match error n with
  | Some msg =>
    if String.eqb msg EmptyString then []
    else [RNode (ErrorElement id msg) msg None []]
  | None => []
  end.

Fixpoint renderNode (fuel : nat) (m : gmap TestId.t TestNode) (id : TestId.t)
  : list Rendered :=
  match fuel with
  | O => []
  | S fuel' =>
    match m !! id with
    | None => []
    | Some n =>
      [RNode (TestElement id) (label n) (Some (computedState n))
         (match expanded n with
          | Expanded => errorLeaf id n ++ flat_map (renderNode fuel' m) (children n)
          | _ => []
          end)]
    end
  end.

(** The rendered tree of a store: the roots, or the children of the root
    when there is only one. *)
Definition render (s : Store) : list Rendered :=
  let fuel := S (maxDepth (items s)) in
  match roots s with
  | [r] =>
    match items s !! r with
    | Some n => errorLeaf r n ++ flat_map (renderNode fuel (items s)) (children n)
    | None => []
    end
  | rs => flat_map (renderNode fuel (items s)) rs
  end.

(** [getRendered()]: labels only, as the test suite compares them. *)
Inductive Labels : Type := L (e : string) (kids : list Labels).

Fixpoint labelsOf (r : Rendered) : Labels :=
  match r with RNode _ e _ kids => L e (map labelsOf kids) end.



(** All elements of a rendered forest. *)
Fixpoint elementsOf (r : Rendered) : list Element :=
  match r with RNode el _ _ kids => el :: flat_map elementsOf kids end.



(** *** The projection and its observers *)

(** The store, the content of the tree control, and every content the
    control has shown so far (oldest first). *)
Record Projection := mkProjection {
  store : Store;
  tree : list Rendered;
  observed : list (list Rendered) }.

(** A diff batch reaches the store; the tree control is not touched. *)
Definition applyDiff (getStateById : ResultLookup) (batch : list TestsDiffOp)
    (p : Projection) : Projection :=
  {| store := applyBatch getStateById batch (store p);
     tree := tree p; observed := observed p |}.

Definition onTestChanged (statePriority : TestResultState -> nat)
    (getStateById : ResultLookup) (id : TestId.t)
    (own computed : TestResultState) (p : Projection) : Projection :=
  {| store := applyStateChange statePriority getStateById id own computed (store p);
     tree := tree p; observed := observed p |}.

(** [applyTo(tree)], the flush: one materialization of the store. *)
Definition applyTo (p : Projection) : Projection :=
  let r := render (store p) in
  {| store := store p; tree := r; observed := observed p ++ [r] |}.

(** [getElementByTestId(idString)] *)
Definition getElementByTestId (delimiter : ascii) (p : Projection)
    (idString : string) : option Element :=
  let id := TestId.fromString delimiter idString in
  match items (store p) !! id with
  | Some _ => Some (TestElement id)
  | None => None
  end.

(** [tree.expand(element)] *)
Definition expand (el : option Element) (p : Projection) : Projection :=
  match el with
  | Some (TestElement id) =>
    {| store := {| items := alter (setExpanded Expanded) id (items (store p));
                   roots := roots (store p) |};
       tree := tree p; observed := observed p |}
  | _ => p
  end.

(** *** Properties of stores *)





(** [x] occurs before [y] in [l]. *)
Definition before {A : Type} (l : list A) (x y : A) : Prop :=
  exists l1 l2 l3, l = l1 ++ x :: l2 ++ y :: l3.

(** The invariant of the Node Store (section 3 of the specification): the
    children lists hold exactly the stored nodes one segment below their
    node, without repetition; the parent of a stored node is stored; the
    roots are the stored nodes without a parent. *)
Record WF (s : Store) : Prop := mkWF {
  wf_children : forall id n c, items s !! id = Some n ->
    (c ∈ children n <-> is_Some (items s !! c) /\ TestId.parentId c = Some id);
  wf_children_nodup : forall id n, items s !! id = Some n -> NoDup (children n);
  wf_parent : forall id p, is_Some (items s !! id) ->
    TestId.parentId id = Some p -> is_Some (items s !! p);
  wf_roots : forall id,
    id ∈ roots s <-> is_Some (items s !! id) /\ TestId.parentId id = None;
  wf_roots_nodup : NoDup (roots s);
  wf_nonempty : items s !! [] = None }.



(** The children of a stored node have the node as their parent. *)
Definition childrenBelow (m : gmap TestId.t TestNode) : Prop :=
  forall k n c, m !! k = Some n -> c ∈ children n -> TestId.parentId c = Some k.

(** Every stored node strictly below [id] is listed by its parent, which
    is stored. *)
Definition linkedBelow (m : gmap TestId.t TestNode) (id : TestId.t) : Prop :=
  forall k, is_Some (m !! k) -> id `prefix_of` k -> k <> id ->
    exists p pn, TestId.parentId k = Some p /\ m !! p = Some pn /\ k ∈ children pn.

(** No stored node at or below [id] is [fuel] or more segments longer
    than [id]. *)
Definition shallowBelow (m : gmap TestId.t TestNode) (id : TestId.t) (fuel : nat) : Prop :=
  forall k, is_Some (m !! k) -> id `prefix_of` k -> length k < length id + fuel.

(** Two stores have the same shape: the same roots and, node by node, the
    same children, in any order. *)
Definition sameShape (s s' : Store) : Prop :=
  roots s' ≡ₚ roots s /\
  forall k, match items s !! k, items s' !! k with
            | Some n, Some n' => children n' ≡ₚ children n
            | None, None => True
            | _, _ => False
            end.



(** The elements the tree control shows for a store. *)
Definition renderedElements (s : Store) : list Element :=
  flat_map elementsOf (render s).





(** The projections the harness can reach from the blank one. *)
Inductive Reachable : Projection -> Prop :=
| Reachable_blank : Reachable (mkProjection emptyStore [] [])
| Reachable_applyDiff getStateById batch p :
    Reachable p -> Reachable (applyDiff getStateById batch p)
| Reachable_onTestChanged statePriority getStateById id own computed p :
    Reachable p ->
    Reachable (onTestChanged statePriority getStateById id own computed p)
| Reachable_applyTo p : Reachable p -> Reachable (applyTo p)
| Reachable_expand el p : Reachable p -> Reachable (expand el p).

End Projection.

(** ** Sample data *)

Module Samples.

(** A persisted state: the controller is expanded, its item "a" is
    collapsed, the item "b" is listed without a [collapsed] field. *)
Definition sampleState : CollapseState.ISerializedTestTreeCollapseState :=
  CollapseState.mkState None (Some {[
    "ctrlId"%string := CollapseState.mkState (Some false) (Some (
      <["id-a"%string := CollapseState.mkState (Some true) None]>
        {[ "id-b"%string := CollapseState.mkState None (Some ∅) ]})) ]}).


(** A persisted state with a test whose local id is "hasOwnProperty",
    next to a test "id-b". *)
Definition shadowedState : CollapseState.ISerializedTestTreeCollapseState :=
  CollapseState.mkState None (Some (
    <["hasOwnProperty"%string := CollapseState.mkState (Some true) None]>
      {[ "id-b"%string := CollapseState.mkState (Some false) None ]})).

(** A service with two tunnels registered for "localhost". *)
Definition tunnel3000 : ExtHostTunnelService.Tunnel :=
  ExtHostTunnelService.mkTunnel
    (ExtHostTunnelService.mkRemote "localhost" 3000) "localhost:3000".

Definition tunnel8080 : ExtHostTunnelService.Tunnel :=
  ExtHostTunnelService.mkTunnel
    (ExtHostTunnelService.mkRemote "localhost" 8080) "localhost:8080".

Definition sampleService : ExtHostTunnelService.Service :=
  ExtHostTunnelService.mkService
    {[ "localhost"%string := <[3000%Z := tunnel3000]> {[ 8080%Z := tunnel8080 ]} ]}
    [].

(** Rows as [loadConnectionTable] builds them from /proc/net/tcp: two
    listening sockets on port 0x1F90, one on 0x0016, one established
    connection. *)
Definition row (local_address st inode : string) : gmap string string :=
  <["local_address"%string := local_address]>
    (<["st"%string := st]> {[ "inode"%string := inode ]}).

Definition sampleTables : list (list (gmap string string)) :=
  [ [ row "0100007F:1F90" "0A" "1001"; row "00000000:0016" "0A" "1002";
      row "0100007F:C001" "01" "1003" ];
    [ row "00000000000000000000000000000000:1F90" "0A" "2001" ] ].

Definition sampleConnections : list (@ListeningPorts.Connection Z) :=
  [ ListeningPorts.mkConnection (Some 2001%Z)
      "00000000000000000000000000000000" (Some 8080%Z);
    ListeningPorts.mkConnection (Some 1002%Z) "00000000" (Some 22%Z) ].

(** The tree the test harness starts from: the controller "ctrlId" with
    the items a (children aa, ab) and b; only the controller is expanded. *)
Definition noResults : Projection.ResultLookup := fun _ => None.

Definition item (l : string) : Projection.TestItem := Projection.mkItem l None None.

Definition ctrl : TestId.t := ["ctrlId"%string].
Definition id_a : TestId.t := ["ctrlId"; "id-a"]%string.
Definition id_aa : TestId.t := ["ctrlId"; "id-a"; "id-aa"]%string.
Definition id_ab : TestId.t := ["ctrlId"; "id-a"; "id-ab"]%string.
Definition id_b : TestId.t := ["ctrlId"; "id-b"]%string.

Definition initialDiff : list Projection.TestsDiffOp :=
  [ Projection.Add ctrl Projection.Expanded (item "root");
    Projection.Add id_a Projection.Collapsed (item "a");
    Projection.Add id_aa Projection.NotExpandable (item "aa");
    Projection.Add id_ab Projection.NotExpandable (item "ab");
    Projection.Add id_b Projection.NotExpandable (item "b") ].

Definition blank : Projection.Projection :=
  Projection.mkProjection Projection.emptyStore [] [].

(** [harness.flush()] of the first test: the initial tree is rendered. *)
Definition initial : Projection.Projection :=
  Projection.applyTo (Projection.applyDiff noResults initialDiff blank).

(** [harness.tree.expand(harness.projection.getElementByTestId(
    new TestId(['ctrlId', 'id-a']).toString())!)], then a flush. *)
Definition expandedA : Projection.Projection :=
  Projection.applyTo
    (Projection.expand
       (Projection.getElementByTestId Ascii.zero initial
          (TestId.toString Ascii.zero id_a))
       initial).










Definition treeOf (kidsOfA : list string) : list Projection.Labels :=
  [ Projection.L "a" (map (fun e => Projection.L e []) kidsOfA);
    Projection.L "b" [] ].












End Samples.

(** ** More JavaScript string built-ins *)

Module JSString.

(** [s.trimEnd()] *)
Fixpoint trimEnd (s : string) : string :=
  match s with
  | EmptyString => EmptyString
  | String c rest =>
    match trimEnd rest with
    | EmptyString => if JS.isWhiteSpace c then EmptyString else String c EmptyString
    | r => String c r
    end
  end.

(** [s.trim()] *)
Definition trim (s : string) : string := trimEnd (JS.trimStart s).

(** [s.split(/\s+/)]: the pieces between the maximal runs of white space;
    [inRun] tells that the characters just before [s] were white space.  A
    string that starts (ends) with white space gets an empty first (last)
    piece, and the empty string gives one empty piece. *)
Fixpoint splitWhiteSpaceFrom (inRun : bool) (s : string) : list string :=
  match s with
  | EmptyString => [EmptyString]
  | String c rest =>
    if JS.isWhiteSpace c then
      if inRun then splitWhiteSpaceFrom true rest
      else EmptyString :: splitWhiteSpaceFrom true rest
    else
      match splitWhiteSpaceFrom false rest with
      | piece :: pieces => String c piece :: pieces
      | [] => [String c EmptyString]
      end
  end.

Definition splitWhiteSpace (s : string) : list string :=
  splitWhiteSpaceFrom false s.

(** The property key of an array index: its decimal numeral. *)
Definition indexToString (i : nat) : string :=
  NilZero.string_of_uint (Nat.to_uint i).

(** [obj[key] = value] on an object created by [{}]: the key "__proto__"
    is the accessor of [Object.prototype], whose setter ignores a string. *)
Definition setProperty (key value : string) (obj : gmap string string)
  : gmap string string :=
  if String.eqb key "__proto__" then obj else <[key := value]> obj.

(** [lit] is a prefix of [s]: what follows it. *)
Fixpoint stripPrefix (lit s : string) : option string :=
  match lit with
  | EmptyString => Some s
  | String c lit' =>
    match s with
    | String d s' => if Ascii.eqb c d then stripPrefix lit' s' else None
    | EmptyString => None
    end
  end.

(** [s.indexOf(lit) !== -1] *)
Fixpoint includes (lit s : string) : bool :=
  match stripPrefix lit s with
  | Some _ => true
  | None =>
    match s with
    | String _ s' => includes lit s'
    | EmptyString => false
    end
  end.

Definition isDigit (c : ascii) : bool :=
  let n := nat_of_ascii c in ((48 <=? n) && (n <=? 57))%nat.

(** The digits of base 16. *)
Definition isHexDigit (c : ascii) : bool :=
  let n := nat_of_ascii c in
  ((48 <=? n) && (n <=? 57) || (97 <=? n) && (n <=? 102) || (65 <=? n) && (n <=? 70))%nat.

Definition isLetter (c : ascii) : bool :=
  let n := nat_of_ascii c in
  ((97 <=? n) && (n <=? 122) || (65 <=? n) && (n <=? 90))%nat.

(** The line terminators among the code units below 256: LF and CR; the
    dot of a regular expression matches every other character. *)
Definition isLineTerminator (c : ascii) : bool :=
  let n := nat_of_ascii c in ((n =? 10) || (n =? 13))%nat.

(** The longest prefix of [s] whose characters satisfy [p], and the rest. *)
Fixpoint span (p : ascii -> bool) (s : string) : string * string :=
  match s with
  | EmptyString => (EmptyString, EmptyString)
  | String c rest =>
    if p c then let '(run, rest') := span p rest in (String c run, rest')
    else (EmptyString, s)
  end.

(** Every character of [s] satisfies [p]. *)
Fixpoint allChars (p : ascii -> bool) (s : string) : bool :=
  match s with
  | EmptyString => true
  | String c rest => p c && allChars p rest
  end.

Definition isNotWhiteSpace (c : ascii) : bool := negb (JS.isWhiteSpace c).

(** A greedy [+] over a character class that the next token of the pattern
    excludes: the longest run, which must not be empty. *)
Definition many1 (p : ascii -> bool) (s : string) : option (string * string) :=
  match span p s with
  | (EmptyString, _) => None
  | (run, rest) => Some (run, rest)
  end.

End JSString.

(** ** The candidate finder of the tunnel service *)

Module CandidateFinder.

(** [name !== 'rx_queue' && name !== 'tm->when'] *)
Definition retained (name : string) : bool :=
  negb (String.eqb name "rx_queue") && negb (String.eqb name "tm->when").

(** [names[i] || i] as a property key: the name of the column, or the
    index when there is no name or the name is empty. *)
Definition columnKey (names : list string) (i : nat) : string :=
  match nth_error names i with
  | Some name => if String.eqb name EmptyString then JSString.indexToString i else name
  | None => JSString.indexToString i
  end.

(** The [reduce] over the values of one line, from index [i] on. *)
Fixpoint fillRow (names : list string) (i : nat) (values : list string)
    (obj : gmap string string) : gmap string string :=
  match values with
  | [] => obj
  | value :: rest =>
    fillRow names (S i) rest (JSString.setProperty (columnKey names i) value obj)
  end.

(** [line.trim().split(/\s+/)] *)
Definition fieldsOf (line : string) : list string :=
  JSString.splitWhiteSpace (JSString.trim line).

(** The names of the columns, from the first line. *)
Definition namesOf (header : string) : list string :=
  List.filter retained (fieldsOf header).

(** [loadConnectionTable(stdout)]; [split] never returns an empty array,
    so that [lines.shift()!] is a string. *)
Definition loadConnectionTable (stdout : string) : list (gmap string string) :=
  match JS.split "010" (JSString.trim stdout) with
  | [] => []
  | header :: lines =>
    map (fun line => fillRow (namesOf header) 0 (fieldsOf line) ∅) lines
  end.

(** The column names [loadConnectionTable] reads from the first line of
    the text. *)
Definition columnsOf (stdout : string) : list string :=
  match JS.split "010" (JSString.trim stdout) with
  | [] => []
  | header :: _ => namesOf header
  end.

(** The lines of the text after the first one. *)
Definition dataLinesOf (stdout : string) : list string :=
  tail (JS.split "010" (JSString.trim stdout)).

(** Of the columns named "st" and "local_address", the first one, if there
    is any, is named "local_address". *)
Definition localAddressFirst (names : list string) : bool :=
  match List.find (fun name => String.eqb name "st" || String.eqb name "local_address")
                  names with
  | Some name => String.eqb name "local_address"
  | None => true
  end.

(** The pattern [/\/proc\/(\d+)\/fd\/\d+ -> socket:\[(\d+)\]/] matched at the
    start of [s]: the two captured groups. *)
Definition matchSocketAt (s : string) : option (string * string) :=
  match JSString.stripPrefix "/proc/" s with
  | None => None
  | Some s1 =>
    match JSString.many1 JSString.isDigit s1 with
    | None => None
    | Some (pid, s2) =>
      match JSString.stripPrefix "/fd/" s2 with
      | None => None
      | Some s3 =>
        match JSString.many1 JSString.isDigit s3 with
        | None => None
        | Some (_, s4) =>
          match JSString.stripPrefix " -> socket:[" s4 with
          | None => None
          | Some s5 =>
            match JSString.many1 JSString.isDigit s5 with
            | None => None
            | Some (inode, s6) =>
              match JSString.stripPrefix "]" s6 with
              | None => None
              | Some _ => Some (pid, inode)
              end
            end
          end
        end
      end
    end
  end.

(** [regexp.exec(line)]: the leftmost match; [None] is [null]. *)
Fixpoint execSocket (line : string) : option (string * string) :=
  match matchSocketAt line with
  | Some groups => Some groups
  | None =>
    match line with
    | String _ rest => execSocket rest
    | EmptyString => None
    end
  end.

(** The pattern ['.*\.vscode\-server\-[a-zA-Z]+\/bin.*'] is given as a string:
    its escapes are those of the string literal, so that the regular
    expression is [.*.vscode-server-[a-zA-Z]+/bin.*], with a dot that
    matches any character but a line terminator.  Matched with the
    character before "vscode-server-" at the start of [s]. *)
Definition matchServerAt (s : string) : bool :=
  match s with
  | EmptyString => false
  | String c s1 =>
    negb (JSString.isLineTerminator c) &&
    match JSString.stripPrefix "vscode-server-" s1 with
    | None => false
    | Some s2 =>
      match JSString.many1 JSString.isLetter s2 with
      | None => false
      | Some (_, s3) =>
        match JSString.stripPrefix "/bin" s3 with
        | None => false
        | Some _ => true
        end
      end
    end
  end.

(** [command.match(pattern)] is not [null]. *)
Fixpoint matchesServer (command : string) : bool :=
  matchServerAt command ||
  match command with
  | String _ rest => matchesServer rest
  | EmptyString => false
  end.

Section WithNumber.
Context {number : Type} `{EqDecision number} (toNumber : Z -> number).

(** [{ pid: number, socket: number }]; [None] is NaN. *)
Record Socket := mkSocket {
  pid : option number;
  socket : option number }.

(** The callback of [lines.map] in [getSockets]; [None] is the TypeError
    thrown by [match[1]] when the line does not match. *)
Definition toSocket (line : string) : option Socket :=
  match execSocket line with
  | None => None
  | Some (pidText, inodeText) =>
    Some {| pid := JS.parseInt toNumber (Some pidText) 10;
            socket := JS.parseInt toNumber (Some inodeText) 10 |}
  end.

(** [getSockets(stdout)] *)
Definition getSockets (stdout : string) : option (list Socket) :=
  mapM toSocket (JS.split "010" (JSString.trim stdout)).

(** [loadListeningPorts(...stdouts)], from the texts. *)
Definition loadListeningPortsOf (stdouts : list string)
  : option (list (@ListeningPorts.Connection number)) :=
  ListeningPorts.loadListeningPorts toNumber (map loadConnectionTable stdouts).

(** [{ pid: number, cwd: string, cmd: string }]; the pid is not NaN. *)
Record Process := mkProcess {
  process_pid : number;
  cwd : string;
  cmd : string }.

(** [{ port: number, detail: string }] *)
Record Candidate := mkCandidate {
  candidate_port : option number;
  detail : string }.

(** [m[key]] of an object filled by [reduce] with [m[k(x)] = x]: the last
    element with the key.  Numbers are keys through their numerals, which
    differ for different numbers. *)
Fixpoint lastWith {A K : Type} `{EqDecision K} (k : A -> K) (key : K) (l : list A)
  : option A :=
  match l with
  | [] => None
  | x :: rest =>
    match lastWith k key rest with
    | Some y => Some y
    | None => if decide (k x = key) then Some x else None
    end
  end.

(** [x] is the last element of [l] with the key. *)
Definition isLastWith {A K : Type} (k : A -> K) (key : K) (l : list A) (x : A) : Prop :=
  exists l1 l2, l = l1 ++ x :: l2 /\ k x = key /\ forall y, y ∈ l2 -> k y <> key.

(** [socketMap[connection.socket]] *)
Definition socketOf (sockets : list Socket) (inode : option number) : option Socket :=
  lastWith socket inode sockets.

(** [processMap[pid]] *)
Definition processOf (processes : list Process) (p : option number) : option Process :=
  match p with
  | Some n => lastWith process_pid n processes
  | None => None
  end.

(** [!command.match(...) && command.indexOf('out/vs/server/main.js') === -1] *)
Definition isCandidateCommand (command : string) : bool :=
  negb (matchesServer command) &&
  negb (JSString.includes "out/vs/server/main.js" command).

(** The body of [forEach]: [None] is the TypeError thrown by
    [processMap[...].cmd] when the process is not listed. *)
Definition candidateOf (sockets : list Socket) (processes : list Process)
    (connection : @ListeningPorts.Connection number) : option (list Candidate) :=
  match socketOf sockets (ListeningPorts.socket connection) with
  | None => Some []
  | Some s =>
    match processOf processes (pid s) with
    | None => None
    | Some process =>
      if isCandidateCommand (cmd process)
      then Some [ {| candidate_port := ListeningPorts.port connection;
                     detail := cmd process |} ]
      else Some []
    end
  end.

(** The end of [$findCandidatePorts], from [connections], [sockets] and
    [processes] on. *)
Definition candidatePorts (processes : list Process)
    (connections : list (@ListeningPorts.Connection number))
    (sockets : list Socket) : option (list Candidate) :=
  match mapM (candidateOf sockets processes) connections with
  | Some found => Some (concat found)
  | None => None
  end.

End WithNumber.

End CandidateFinder.

(** ** Forwarding and the forward-port provider *)

Module Forwarding.

(** The [then] callback of [$forwardPort], run when the provider's promise
    is fulfilled with [tunnel]: the tunnel is stored under the remote of
    the request.  (The listener it registers on [tunnel.onDispose] is not
    part of the state [$closeTunnel] reads.) *)
Definition forwarded (r : ExtHostTunnelService.Remote)
    (tunnel : ExtHostTunnelService.Tunnel)
    (svc : ExtHostTunnelService.Service) : ExtHostTunnelService.Service :=
  let tunnels := ExtHostTunnelService._extensionTunnels svc in
  let tunnels' :=
    match tunnels !! ExtHostTunnelService.host r with
    | Some _ => tunnels
    | None => <[ExtHostTunnelService.host r := ∅]> tunnels
    end in
  let hostMap := default ∅ (tunnels' !! ExtHostTunnelService.host r) in
  {| ExtHostTunnelService._extensionTunnels :=
       <[ExtHostTunnelService.host r :=
           <[ExtHostTunnelService.port r := tunnel]> hostMap]> tunnels';
     ExtHostTunnelService.disposed := ExtHostTunnelService.disposed svc |}.

End Forwarding.

(** ** More sample data *)

Module MoreSamples.

(** The first line of /proc/net/tcp. *)
Definition procNetHeader : string :=
  "  sl  local_address rem_address   st tx_queue rx_queue tr tm->when retrnsmt   uid  timeout inode".

(** /proc/net/tcp with a listening socket on port 0x0016 and an
    established connection. *)
Definition procNetTcp : string :=
  procNetHeader +:+ String "010"
  "   0: 00000000:0016 00000000:0000 0A 00000000:00000000 00:00000000 00000000     0        0 16423 1 0000000000000000 100 0 0 10 0"
  +:+ String "010"
  "   1: 0100007F:1F90 0100007F:C350 01 00000000:00000000 00:00000000 00000000  1000        0 20001 1 0000000000000000 20 4 30 10 -1"
  +:+ String "010" EmptyString.

(** A table with the two columns whose names are not kept. *)
Definition queueTable : string :=
  "sl rx_queue st tm->when" +:+ String "010" "0: 0A 7 x".

(** What [ls -l /proc/[0-9]*/fd/[0-9]* | grep socket:] prints for two
    sockets, and what it prints when there is none. *)
Definition procSockets : string :=
  "lrwx------ 1 root root 64 Nov  1 10:00 /proc/123/fd/4 -> socket:[16423]"
  +:+ String "010"
  "lrwx------ 1 app app 64 Nov  1 10:00 /proc/77/fd/19 -> socket:[20001]"
  +:+ String "010" EmptyString.

Definition blankText : string := String "010" EmptyString.

Definition socketList : list (@CandidateFinder.Socket Z) :=
  [ CandidateFinder.mkSocket (Some 123%Z) (Some 16423%Z);
    CandidateFinder.mkSocket (Some 77%Z) (Some 20001%Z) ].

(** Two processes: a server of the editor and a program under
    development; the sockets above belong to them. *)
Definition processList : list (@CandidateFinder.Process Z) :=
  [ CandidateFinder.mkProcess 123%Z "/home/u"
      "/home/u/.vscode-server-insiders/bin/abc/node /home/u/.vscode-server-insiders/bin/abc/out/vs/server/main.js";
    CandidateFinder.mkProcess 77%Z "/home/u/app" "node server.js" ].

Definition connectionList : list (@ListeningPorts.Connection Z) :=
  [ ListeningPorts.mkConnection (Some 16423%Z) "00000000" (Some 22%Z);
    ListeningPorts.mkConnection (Some 20001%Z) "0100007F" (Some 8080%Z);
    ListeningPorts.mkConnection (Some 555%Z) "00000000" (Some 80%Z) ].

(** A listening row with the given [local_address]. *)
Definition addressRow (local_address : string) : gmap string string :=
  <["local_address"%string := local_address]> {[ "st"%string := "0A"%string ]}.

(** A request to forward port 3000 of "localhost", and the tunnel a
    provider answers it with. *)
Definition remote3000 : ExtHostTunnelService.Remote :=
  ExtHostTunnelService.mkRemote "localhost" 3000.

Definition providedTunnel : ExtHostTunnelService.Tunnel :=
  ExtHostTunnelService.mkTunnel remote3000 "127.0.0.1:43000".

End MoreSamples.

(* ===================================================================== *)
(** * Part II: theorems *)
(* ===================================================================== *)

(** ** Collapse-state lookup *)

Section CollapseStateFacts.
Import CollapseState.

Lemma askable_walk n m part rest :
  askable n m ->
  walk n (part :: rest)
  = match m !! part with
    | None => Returns None
    | Some child => walk child rest
    end.
Proof.
  intros [Hc Hm]. cbn [walk]. rewrite Hc. unfold shadowsHasOwnProperty.
  rewrite bool_decide_eq_false_2; [reflexivity|].
  rewrite Hm. by intros [x Hx].
Qed.

Lemma shadowed_walk n part rest : shadowed n -> walk n (part :: rest) = Throws.
Proof.
  intros (m & Hc & Hm). cbn [walk]. rewrite Hc. unfold shadowsHasOwnProperty.
  by rewrite bool_decide_eq_true_2.
Qed.

Lemma lacks_walk n part rest : lacks n part -> walk n (part :: rest) = Returns None.
Proof.
  intros [Hc|(m & Hask & Hm)].
  - cbn [walk]. by rewrite Hc.
  - by rewrite (askable_walk n m part rest Hask), Hm.
Qed.

Lemma walk_continues n path target rest :
  Reaches n path target -> walk n (path ++ rest) = walk target rest.
Proof.
  induction 1 as [|n m part child tail target Hask Hm _ IH]; [reflexivity|].
  change ((part :: tail) ++ rest) with (part :: (tail ++ rest)).
  by rewrite (askable_walk n m part _ Hask), Hm.
Qed.

Lemma walk_reaches n path target :
  Reaches n path target -> walk n path = Returns (collapsed target).
Proof.
  intros Hr. rewrite <- (app_nil_r path). by rewrite (walk_continues _ _ _ [] Hr).
Qed.

Lemma walk_absent n path : SegmentAbsent n path -> walk n path = Returns None.
Proof.
  intros (pre & part & post & reached & -> & Hr & Hl).
  rewrite (walk_continues _ _ _ (part :: post) Hr). by apply lacks_walk.
Qed.

Lemma walk_shadowed n path : SegmentShadowed n path -> walk n path = Throws.
Proof.
  intros (pre & part & post & reached & -> & Hr & Hs).
  rewrite (walk_continues _ _ _ (part :: post) Hr). by apply shadowed_walk.
Qed.

Lemma reaches_absent_or_shadowed n path :
  SegmentAbsent n path \/ SegmentShadowed n path \/ exists target, Reaches n path target.
Proof.
  revert n. induction path as [|part rest IH]; intros n.
  - right. right. exists n. constructor.
  - destruct (children n) as [m|] eqn:Hc.
    + destruct (m !! "hasOwnProperty"%string) as [hidden|] eqn:Hshadow.
      * right. left. exists [], part, rest, n. split; [reflexivity|].
        split; [constructor|]. exists m. eauto.
      * assert (Hask : askable n m) by done.
        destruct (m !! part) as [child|] eqn:Hm.
        -- destruct (IH child) as [(pre & p & post & r & -> & Hr & Hl)
                                  |[(pre & p & post & r & -> & Hr & Hs)|[target Ht]]].
           ++ left. exists (part :: pre), p, post, r. split; [reflexivity|].
              split; [econstructor; eassumption|exact Hl].
           ++ right. left. exists (part :: pre), p, post, r. split; [reflexivity|].
              split; [econstructor; eassumption|exact Hs].
           ++ right. right. exists target. econstructor; eassumption.
        -- left. exists [], part, rest, n. split; [reflexivity|].
           split; [constructor|]. right. eauto.
    + left. exists [], part, rest, n. split; [reflexivity|].
      split; [constructor|]. by left.
Qed.

(** C8. The claim fails where a children map holds a test whose local
    id is "hasOwnProperty": [node.children.hasOwnProperty] is then that
    test's state and not the method, and the call throws.  In the state
    below, the segment "id-a" is absent from the children map of the root
    and the segment "hasOwnProperty" is present with [collapsed] true, and
    for both ids (and for the first as a string) [isCollapsedInSerializedTestTree]
    throws a TypeError; it returns neither [undefined] nor [true]. *)
Theorem isCollapsed_throws_when_a_test_is_named_hasOwnProperty :
  (exists m, children Samples.shadowedState = Some m /\
     m !! "id-a"%string = None /\
     m !! "hasOwnProperty"%string = Some (mkState (Some true) None)) /\
  isCollapsedInSerializedTestTree ":" Samples.shadowedState (inl ["id-a"%string])
  = Throws /\
  isCollapsedInSerializedTestTree ":" Samples.shadowedState (inr "id-a"%string)
  = Throws /\
  isCollapsedInSerializedTestTree ":" Samples.shadowedState
    (inl ["hasOwnProperty"%string])
  = Throws.
Proof.
  split.
  - eexists. split; [reflexivity|]. split; vm_compute; reflexivity.
  - split; [|split]; vm_compute; reflexivity.
Qed.

End CollapseStateFacts.

(** ** Tunnel service *)

Section CloseTunnelFacts.
Import ExtHostTunnelService.

Lemma tunnelAt_closeTunnel_other r svc h p :
  (h, p) <> (host r, port r) ->
  tunnelAt (closeTunnel r svc) h p = tunnelAt svc h p.
Proof.
  intros Hne. unfold closeTunnel, tunnelAt.
  destruct (_extensionTunnels svc !! host r) as [hostMap|] eqn:Hh; [|reflexivity].
  destruct (hostMap !! port r) as [tunnel|] eqn:Hp; [|reflexivity].
  simpl. destruct (decide (host r = h)) as [<-|Hh'].
  - rewrite lookup_insert_eq, Hh. apply lookup_delete_ne. congruence.
  - rewrite lookup_insert_ne by exact Hh'. reflexivity.
Qed.

(** C10. [$closeTunnel] disposes and deletes exactly the tunnel stored
    under the remote's host and port when there is one: one more call of
    [dispose], on that tunnel, the entry is gone and every other entry of
    every host is as before; without such a tunnel (unknown host, or
    unknown port for the host) the service is unchanged. *)
Theorem closeTunnel_exact (r : Remote) (svc : Service) :
  (forall tunnel, tunnelAt svc (host r) (port r) = Some tunnel ->
     disposed (closeTunnel r svc) = disposed svc ++ [tunnel] /\
     tunnelAt (closeTunnel r svc) (host r) (port r) = None /\
     (forall h p, (h, p) <> (host r, port r) ->
        tunnelAt (closeTunnel r svc) h p = tunnelAt svc h p) /\
     (forall h, is_Some (_extensionTunnels (closeTunnel r svc) !! h)
                <-> is_Some (_extensionTunnels svc !! h))) /\
  (tunnelAt svc (host r) (port r) = None -> closeTunnel r svc = svc).
Proof.
  split.
  - intros tunnel Ht. split; [|split; [|split]].
    + unfold closeTunnel, tunnelAt in *.
      destruct (_extensionTunnels svc !! host r) as [hostMap|]; [|discriminate].
      rewrite Ht. reflexivity.
    + unfold closeTunnel, tunnelAt in *.
      destruct (_extensionTunnels svc !! host r) as [hostMap|]; [|discriminate].
      rewrite Ht. simpl. rewrite lookup_insert_eq. apply lookup_delete_eq.
    + intros h p. apply tunnelAt_closeTunnel_other.
    + intros h. unfold closeTunnel, tunnelAt in *.
      destruct (_extensionTunnels svc !! host r) as [hostMap|] eqn:Hh; [|discriminate].
      rewrite Ht. simpl. destruct (decide (host r = h)) as [<-|Hne].
      * rewrite lookup_insert_eq, Hh. split; eauto.
      * rewrite lookup_insert_ne by exact Hne. reflexivity.
  - unfold closeTunnel, tunnelAt.
    destruct (_extensionTunnels svc !! host r) as [hostMap|]; [|reflexivity].
    intros ->. reflexivity.
Qed.

Lemma closeTunnel_exact_witness :
  disposed (closeTunnel (mkRemote "localhost" 3000) Samples.sampleService)
    = [Samples.tunnel3000] /\
  tunnelAt (closeTunnel (mkRemote "localhost" 3000) Samples.sampleService)
    "localhost" 8080 = Some Samples.tunnel8080 /\
  closeTunnel (mkRemote "elsewhere" 3000) Samples.sampleService
    = Samples.sampleService.
Proof.
  destruct (closeTunnel_exact (mkRemote "localhost" 3000) Samples.sampleService)
    as [Hclose _].
  destruct (Hclose Samples.tunnel3000) as (Hd & _ & Hother & _); [reflexivity|].
  destruct (closeTunnel_exact (mkRemote "elsewhere" 3000) Samples.sampleService)
    as [_ Hnone].
  split; [exact Hd|]. split.
  - rewrite Hother; [reflexivity|]. simpl. intros [=].
  - apply Hnone. reflexivity.
Defined.

End CloseTunnelFacts.

(** ** Listening ports *)

Section JSMapFacts.
Context {K V : Type} `{EqDecision K}.
Implicit Types (m es : list (K * V)) (k : K) (v : V).

Lemma mapSet_elem_of k v m k' v' :
  NoDup (map fst m) ->
  (k', v') ∈ JS.mapSet k v m <->
  (k' = k /\ v' = v) \/ (k' <> k /\ (k', v') ∈ m).
Proof.
  induction m as [|[k0 v0] rest IH]; intros Hnd; simpl.
  - rewrite list_elem_of_singleton, elem_of_nil. split.
    + intros [= -> ->]. by left.
    + intros [[-> ->]|[_ []]]. done.
  - apply NoDup_cons in Hnd as [Hk0 Hnd]. specialize (IH Hnd).
    assert (Hin : forall a b, (a, b) ∈ rest -> a <> k0).
    { intros a b Hab ->. apply Hk0. apply list_elem_of_fmap. exists (k0, b). done. }
    destruct (decide (k = k0)) as [->|Hne]; rewrite !elem_of_cons.
    + split.
      * intros [[= -> ->]|Hr]; [left; done|right]. split; [eapply Hin, Hr|by right].
      * intros [[-> ->]|[Hk [[= -> ->]|Hr]]]; [by left|done|by right].
    + rewrite IH. split.
      * intros [[= -> ->]|[[-> ->]|[Hk Hr]]].
        -- right. split; [congruence|by left].
        -- by left.
        -- right. split; [done|by right].
      * intros [[-> ->]|[Hk [[= -> ->]|Hr]]].
        -- right. by left.
        -- by left.
        -- right. right. done.
Qed.

Lemma mapSet_keys_NoDup k v m :
  NoDup (map fst m) -> NoDup (map fst (JS.mapSet k v m)).
Proof.
  induction m as [|[k0 v0] rest IH]; intros Hnd; simpl.
  - apply NoDup_singleton.
  - apply NoDup_cons in Hnd as [Hk0 Hnd].
    destruct (decide (k = k0)) as [->|Hne]; simpl.
    + apply NoDup_cons. done.
    + apply NoDup_cons. split; [|by apply IH].
      intros Hin. apply list_elem_of_fmap in Hin as [[a b] [Ha Hab]].
      simpl in Ha. subst a.
      apply mapSet_elem_of in Hab; [|done].
      destruct Hab as [[-> _]|[_ Hab]]; [done|].
      apply Hk0. apply list_elem_of_fmap. by exists (k0, b).
Qed.

Lemma newMap_snoc es k v :
  JS.newMap (es ++ [(k, v)]) = JS.mapSet k v (JS.newMap es).
Proof. unfold JS.newMap. rewrite fold_left_app. reflexivity. Qed.

Lemma newMap_keys_NoDup es : NoDup (map fst (JS.newMap es)).
Proof.
  induction es as [|[k v] es IH] using rev_ind.
  - apply NoDup_nil. done.
  - rewrite newMap_snoc. by apply mapSet_keys_NoDup.
Qed.

(** An entry is in [new Map(entries)] exactly when it is the last of the
    entries with its key. *)
Lemma newMap_elem_of es k v :
  (k, v) ∈ JS.newMap es <->
  exists l1 l2, es = l1 ++ (k, v) :: l2 /\ forall kv, kv ∈ l2 -> fst kv <> k.
Proof.
  revert k v. induction es as [|[k0 v0] es IH] using rev_ind; intros k v.
  - unfold JS.newMap. simpl. rewrite elem_of_nil. split; [done|].
    intros (l1 & l2 & Heq & _). by destruct l1.
  - rewrite newMap_snoc, mapSet_elem_of by apply newMap_keys_NoDup.
    rewrite IH. split.
    + intros [[-> ->]|[Hne (l1 & l2 & -> & Hl2)]].
      * exists es, []. split; [done|]. intros kv Hkv. by apply elem_of_nil in Hkv.
      * exists l1, (l2 ++ [(k0, v0)]). split; [by rewrite <- app_assoc|].
        intros kv [Hkv|Hkv]%elem_of_app; [by apply Hl2|].
        apply list_elem_of_singleton in Hkv as ->. done.
    + intros (l1 & l2 & Heq & Hl2).
      destruct l2 as [|x l2 _] using rev_ind.
      * apply app_inj_tail in Heq as [-> [= -> ->]]. by left.
      * rewrite app_comm_cons, app_assoc in Heq.
        apply app_inj_tail in Heq as [-> <-]. right. split.
        -- intros Hk. apply (Hl2 (k0, v0)); [|by symmetry].
           apply elem_of_app. right. by apply list_elem_of_singleton.
        -- exists l1, l2. split; [done|]. intros kv Hkv. apply Hl2.
           apply elem_of_app. by left.
Qed.

End JSMapFacts.

Section ListeningPortsFacts.
Context {number : Type} `{EqDecision number} (toNumber : Z -> number).
Import ListeningPorts.

Local Notation Conn := (@Connection number).
Local Notation entry := (fun c : Conn => (port c, c)).
Lemma toConnection_defined (row : Row) :
  is_Some (toConnection toNumber row) <-> is_Some (row !! "local_address"%string).
Proof.
  unfold toConnection. destruct (row !! "local_address"%string); split; eauto.
  all: intros [x Hx]; discriminate.
Qed.

Lemma values_entries_ports (conns0 : list Conn) :
  map port (JS.values (JS.newMap (map entry conns0)))
  = map fst (JS.newMap (map entry conns0)).
Proof.
  assert (Hall : forall kv, kv ∈ JS.newMap (map entry conns0) -> fst kv = port (snd kv)).
  { intros [k c] Hkv. apply newMap_elem_of in Hkv as (l1 & l2 & Heq & _).
    assert (Hin : (k, c) ∈ map entry conns0).
    { rewrite Heq. apply elem_of_app. right. by left. }
    apply list_elem_of_fmap in Hin as (c' & [= -> ->] & _). reflexivity. }
  unfold JS.values. induction (JS.newMap (map entry conns0)) as [|kv M IH]; simpl.
  - reflexivity.
  - rewrite IH; [|intros kv' Hkv'; apply Hall; by right].
    rewrite (Hall kv) by by left. reflexivity.
Qed.

Lemma values_entries_elem_of (rows : list Row) (conns0 : list Conn) (c : Conn) :
  Forall2 (fun row c => toConnection toNumber row = Some c) rows conns0 ->
  c ∈ JS.values (JS.newMap (map entry conns0)) <-> lastOfItsPort toNumber rows c.
Proof.
  intros HF. unfold JS.values, lastOfItsPort. rewrite list_elem_of_fmap. split.
  - intros ([k c'] & -> & Hkc). simpl.
    apply newMap_elem_of in Hkc as (l1 & l2 & Heq & Hl2).
    apply fmap_app_inv in Heq as (c1 & cs & -> & Hcs & ->).
    symmetry in Hcs.
    apply fmap_cons_inv in Hcs as (c0 & c2 & [= -> ->] & -> & ->).
    apply Forall2_app_inv_r in HF as (rows1 & rows' & _ & HF & ->).
    apply Forall2_cons_inv_r in HF as (row & rows2 & Hrow & HF & ->).
    exists rows1, row, rows2. split; [reflexivity|]. split; [exact Hrow|].
    intros row' c' Hin Hc'.
    apply list_elem_of_lookup in Hin as [i Hi].
    destruct (Forall2_lookup_l _ _ _ _ _ HF Hi) as (c'' & Hi' & Hc'').
    rewrite Hc' in Hc''. injection Hc'' as <-.
    apply (Hl2 (port c', c')).
    apply list_elem_of_fmap. exists c'. split; [reflexivity|].
    apply list_elem_of_lookup. eauto.
  - intros (rows1 & row & rows2 & -> & Hrow & Hlater).
    apply Forall2_app_inv_l in HF as (c1 & cs & _ & HF & ->).
    apply Forall2_cons_inv_l in HF as (c0 & c2 & Hc0 & HF & ->).
    rewrite Hrow in Hc0. injection Hc0 as <-.
    exists (port c, c). split; [reflexivity|].
    apply newMap_elem_of. exists (map entry c1), (map entry c2).
    split; [by rewrite map_app|].
    intros kv Hkv. apply list_elem_of_fmap in Hkv as (c' & -> & Hc'). simpl.
    apply list_elem_of_lookup in Hc' as [i Hi].
    destruct (Forall2_lookup_r _ _ _ _ _ HF Hi) as (row' & Hi' & Hrow').
    eapply Hlater; [|exact Hrow']. apply list_elem_of_lookup. eauto.
Qed.

(** C9. [loadListeningPorts] returns (rather than throwing) exactly when
    every row with [st === '0A'] has a [local_address]; what it returns are
    entries of rows with [st === '0A'] only, the port read in base 16 from
    the second colon-separated component of [local_address] and the socket
    in base 10 from [inode]; no two entries have the same port, and the
    entry of a port is the one of the last listening row with that port. *)
Theorem loadListeningPorts_listening_unique (tables : list (list Row)) :
  (is_Some (loadListeningPorts toNumber tables) <->
   forall row, row ∈ concat tables -> row !! "st"%string = Some "0A"%string ->
               is_Some (row !! "local_address"%string)) /\
  forall conns : list Conn,
    loadListeningPorts toNumber tables = Some conns ->
    (forall c, c ∈ conns ->
       exists row local_address,
         row ∈ concat tables /\
         row !! "st"%string = Some "0A"%string /\
         row !! "local_address"%string = Some local_address /\
         port c = JS.parseInt toNumber
                    (nth_error (JS.split ":" local_address) 1) 16 /\
         socket c = JS.parseInt toNumber (row !! "inode"%string) 10) /\
    NoDup (map port conns) /\
    (forall c, c ∈ conns <-> lastOfItsPort toNumber (listeningRows tables) c).
Proof.
  assert (Hfilter : forall row, row ∈ listeningRows tables <->
            row ∈ concat tables /\ row !! "st"%string = Some "0A"%string).
  { intros row. unfold listeningRows. rewrite !list_elem_of_In, filter_In.
    unfold isListening.
    rewrite bool_decide_eq_true. reflexivity. }
  unfold loadListeningPorts. split.
  - destruct (mapM (toConnection toNumber) (listeningRows tables)) as [conns0|] eqn:HM.
    + split; [|eauto]. intros _ row Hin Hst.
      assert (Hs : is_Some (mapM (toConnection toNumber) (listeningRows tables))) by eauto.
      apply mapM_is_Some_1 in Hs. rewrite Forall_forall in Hs.
      apply toConnection_defined, (Hs row), Hfilter. done.
    + split; [intros [x Hx]; discriminate|]. intros Hall.
      assert (Hs : is_Some (mapM (toConnection toNumber) (listeningRows tables))).
      { apply mapM_is_Some_2, Forall_forall. intros row Hrow.
        apply Hfilter in Hrow as [Hin Hst]. apply toConnection_defined. eauto. }
      rewrite HM in Hs. destruct Hs as [x Hx]. discriminate.
  - intros conns.
    destruct (mapM (toConnection toNumber) (listeningRows tables)) as [conns0|] eqn:HM;
      [|discriminate].
    intros [= <-]. apply mapM_Some_1 in HM.
    assert (Hlast := fun c => values_entries_elem_of _ _ c HM).
    split; [|split].
    + intros c Hc. apply Hlast in Hc as (rows1 & row & rows2 & Heq & Hrow & _).
      assert (Hin : row ∈ listeningRows tables).
      { rewrite Heq. apply elem_of_app. right. by left. }
      apply Hfilter in Hin as [Hin Hst].
      unfold toConnection in Hrow.
      destruct (row !! "local_address"%string) as [la|] eqn:Hla; [|discriminate].
      injection Hrow as <-. exists row, la. simpl. done.
    + rewrite values_entries_ports. apply newMap_keys_NoDup.
    + exact Hlast.
Qed.

End ListeningPortsFacts.

(** On the sample tables the three listening rows give two entries, the
    one of port 0x1F90 coming from the later (tcp6) row. *)
Lemma loadListeningPorts_listening_unique_witness :
  ListeningPorts.loadListeningPorts (fun z : Z => z) Samples.sampleTables
    = Some Samples.sampleConnections /\
  NoDup (map ListeningPorts.port Samples.sampleConnections).
Proof.
  destruct (loadListeningPorts_listening_unique (fun z : Z => z) Samples.sampleTables)
    as [_ Hret].
  assert (Hload : ListeningPorts.loadListeningPorts (fun z : Z => z) Samples.sampleTables
                  = Some Samples.sampleConnections) by (vm_compute; reflexivity).
  destruct (Hret _ Hload) as (_ & Hnd & _).
  split; [exact Hload|exact Hnd].
Defined.

(** ** Sorted insertion and stable sorting *)


Section BeforeFacts.
Context {A : Type}.
Implicit Types (l : list A) (x y a b : A).



Lemma before_elem_of l a b : Projection.before l a b -> a ∈ l /\ b ∈ l.
Proof.
  intros (l1 & l2 & l3 & ->). split.
  - apply elem_of_app. right. by left.
  - apply elem_of_app. right. right. apply elem_of_app. right. by left.
Qed.

End BeforeFacts.

Section SortingFacts.
Context {A : Type} (cmp : A -> A -> comparison).
Implicit Types (l : list A) (x y : A).

Local Notation le := (fun x y => cmp x y <> Gt).

Lemma insertSorted_Permutation x l : Projection.insertSorted cmp x l ≡ₚ x :: l.
Proof.
  induction l as [|y rest IH]; simpl; [done|].
  destruct (cmp x y); [|done|].
  all: rewrite IH; apply Permutation_swap.
Qed.

Lemma insertSorted_elem_of y x l :
  y ∈ Projection.insertSorted cmp x l <-> y = x \/ y ∈ l.
Proof. rewrite insertSorted_Permutation. apply elem_of_cons. Qed.

Lemma stableSort_snoc l x :
  Projection.stableSort cmp (l ++ [x])
  = Projection.insertSorted cmp x (Projection.stableSort cmp l).
Proof. unfold Projection.stableSort. rewrite fold_left_app. reflexivity. Qed.

Lemma stableSort_Permutation l : Projection.stableSort cmp l ≡ₚ l.
Proof.
  induction l as [|x l IH] using rev_ind; [done|].
  rewrite stableSort_snoc, insertSorted_Permutation, IH.
  apply Permutation_cons_append.
Qed.


Section Preorder.
(** The comparator is a total preorder on the elements that satisfy [P]. *)
Variable P : A -> Prop.
Hypothesis cmp_antisym : forall x y, cmp y x = CompOpp (cmp x y).
Hypothesis cmp_trans : forall x y z, P x -> P y -> P z ->
  cmp x y <> Gt -> cmp y z <> Gt -> cmp x z <> Gt.





End Preorder.
End SortingFacts.

(** ** Identifiers *)

Lemma parentId_Some id p :
  TestId.parentId id = Some p <-> exists seg, id = p ++ [seg] /\ p <> [].
Proof.
  unfold TestId.parentId. split.
  - destruct (Nat.ltb_spec 1 (length id)) as [Hlt|Hge]; [|done].
    intros [= <-]. assert (Hne : id <> []) by (intros ->; simpl in Hlt; lia).
    exists (List.last id EmptyString). split.
    + by apply app_removelast_last.
    + intros Hnil. rewrite (app_removelast_last EmptyString Hne), Hnil in Hlt.
      simpl in Hlt. lia.
  - intros (seg & -> & Hne). rewrite length_app. simpl.
    destruct p as [|x p]; [done|]. simpl.
    destruct (Nat.ltb_spec 1 (S (length p + 1))) as [_|Hge]; [|lia].
    f_equal. apply (removelast_last (x :: p)).
Qed.

Lemma parentId_length id p :
  TestId.parentId id = Some p -> length id = S (length p).
Proof.
  intros (seg & -> & _)%parentId_Some. rewrite length_app. simpl. lia.
Qed.

Lemma parentId_neq id p : TestId.parentId id = Some p -> p <> id.
Proof. intros H%parentId_length ->. lia. Qed.

Lemma parentId_prefix id p : TestId.parentId id = Some p -> p `prefix_of` id.
Proof. intros (seg & -> & _)%parentId_Some. by exists [seg]. Qed.

Lemma parentId_None id : TestId.parentId id = None <-> length id <= 1.
Proof.
  unfold TestId.parentId.
  destruct (Nat.ltb_spec 1 (length id)); split; (done || lia).
Qed.

Lemma isRoot_parentId id : TestId.isRoot id = true -> TestId.parentId id = None.
Proof.
  unfold TestId.isRoot. intros H%Nat.eqb_eq. apply parentId_None. lia.
Qed.

(** ** Diffs and notifications that address nothing *)

Section UnaddressedFacts.
Import Projection.







End UnaddressedFacts.

(** ** One materialization per flush *)

Section FlushFacts.
Import Projection.


End FlushFacts.

(** ** Updates *)

Section UpdateFacts.
Import Projection.







End UpdateFacts.

(** ** Rendering *)

Section RenderFacts.
Import Projection.
Implicit Types (m : gmap TestId.t TestNode) (s : Store) (id k c : TestId.t).

Lemma maxDepth_bound m k : is_Some (m !! k) -> length k <= maxDepth m.
Proof.
  intros Hk. unfold maxDepth. apply max_list_elem_of_le.
  apply list_elem_of_fmap. exists k. split; [done|].
  apply elem_of_elements, elem_of_dom, Hk.
Qed.

Lemma maxDepth_dom m1 m2 : dom m1 = dom m2 -> maxDepth m1 = maxDepth m2.
Proof. unfold maxDepth. by intros ->. Qed.





End RenderFacts.

(** ** Visibility *)

Section VisibilityFacts.
Import Projection.
Implicit Types (m : gmap TestId.t TestNode) (s : Store) (id k c : TestId.t).







Lemma applyUpdate_dom id u s :
  dom (items (applyUpdate id u s)) = dom (items s).
Proof.
  unfold applyUpdate. destruct (items s !! id) as [n|] eqn:Hid; [|done].
  assert (Hd : dom (<[id:=patch u n]> (items s)) = dom (items s)).
  { rewrite dom_insert_L. apply subseteq_union_1_L.
    apply singleton_subseteq_l, elem_of_dom. eauto. }
  destruct (sortKeyChanged n (patch u n)); simpl; [|done].
  unfold resortSiblings. simpl. destruct (TestId.parentId id) as [p|]; simpl; [|done].
  destruct (<[id:=patch u n]> (items s) !! p) as [pn|] eqn:Hp; simpl; [|done].
  rewrite dom_insert_L, Hd. apply subseteq_union_1_L.
  apply singleton_subseteq_l. rewrite <- Hd. apply elem_of_dom. eauto.
Qed.






End VisibilityFacts.

Section CompletenessFacts.
Import Projection.
Implicit Types (m : gmap TestId.t TestNode) (s : Store) (id k c a : TestId.t).








End CompletenessFacts.

(** ** The store invariant *)

Section InvariantFacts.
Import Projection.
Implicit Types (m : gmap TestId.t TestNode) (s : Store) (id k c a : TestId.t).

Lemma WF_empty : WF emptyStore.
Proof.
  split; simpl.
  - intros id n c Hn. by rewrite lookup_empty in Hn.
  - intros id n Hn. by rewrite lookup_empty in Hn.
  - intros id p [n Hn]. by rewrite lookup_empty in Hn.
  - intros id. split; [by intros H%elem_of_nil|].
    intros [[n Hn] _]. by rewrite lookup_empty in Hn.
  - constructor.
  - apply lookup_empty.
Qed.

Lemma sameShape_stored s s' k :
  sameShape s s' -> is_Some (items s' !! k) <-> is_Some (items s !! k).
Proof.
  intros [_ H]. specialize (H k).
  destruct (items s !! k), (items s' !! k); try done; split; eauto.
  all: intros [x Hx]; done.
Qed.

Lemma WF_sameShape s s' : WF s -> sameShape s s' -> WF s'.
Proof.
  intros Hwf Hsh. pose proof Hsh as [Hr Hk]. split.
  - intros id n' c Hn'. specialize (Hk id). rewrite Hn' in Hk.
    destruct (items s !! id) as [n|] eqn:Hn; [|done].
    rewrite Hk, (sameShape_stored s s' c Hsh). by apply (wf_children s Hwf).
  - intros id n' Hn'. specialize (Hk id). rewrite Hn' in Hk.
    destruct (items s !! id) as [n|] eqn:Hn; [|done].
    rewrite Hk. by apply (wf_children_nodup s Hwf id).
  - intros id p Hid Hp. apply (sameShape_stored s s' _ Hsh).
    apply (sameShape_stored s s' _ Hsh) in Hid. by apply (wf_parent s Hwf id).
  - intros id. rewrite Hr, (sameShape_stored s s' id Hsh). apply (wf_roots s Hwf).
  - rewrite Hr. apply (wf_roots_nodup s Hwf).
  - specialize (Hk []). rewrite (wf_nonempty s Hwf) in Hk.
    by destruct (items s' !! []).
Qed.

Lemma sameShape_refl s : sameShape s s.
Proof. split; [done|]. intros k. by destruct (items s !! k). Qed.

Lemma sameShape_trans s1 s2 s3 : sameShape s1 s2 -> sameShape s2 s3 -> sameShape s1 s3.
Proof.
  intros [Hr1 Hk1] [Hr2 Hk2]. split; [by rewrite Hr2|]. intros k.
  specialize (Hk1 k). specialize (Hk2 k).
  destruct (items s1 !! k), (items s2 !! k), (items s3 !! k); try done.
  by rewrite Hk2.
Qed.

(** Replacing a stored node by one with the same children, in any order,
    keeps the shape. *)
Lemma sameShape_insert s k n n' rs :
  items s !! k = Some n -> children n' ≡ₚ children n -> rs ≡ₚ roots s ->
  sameShape s {| items := <[k := n']> (items s); roots := rs |}.
Proof.
  intros Hk Hc Hr. split; [done|]. intros j. simpl.
  destruct (decide (j = k)) as [->|Hne].
  - by rewrite lookup_insert_eq, Hk.
  - rewrite lookup_insert_ne by done. by destruct (items s !! j).
Qed.

Lemma sameShape_resortSiblings id s : sameShape s (resortSiblings id s).
Proof.
  unfold resortSiblings. destruct (TestId.parentId id) as [p|].
  - destruct (items s !! p) as [pn|] eqn:Hp; [|apply sameShape_refl].
    apply sameShape_insert with pn; [done| |done].
    simpl. apply stableSort_Permutation.
  - split; simpl; [apply stableSort_Permutation|].
    intros k. by destruct (items s !! k).
Qed.

Lemma sameShape_applyUpdate id u s : sameShape s (applyUpdate id u s).
Proof.
  unfold applyUpdate. destruct (items s !! id) as [n|] eqn:Hid; [|apply sameShape_refl].
  assert (H1 : sameShape s {| items := <[id := patch u n]> (items s); roots := roots s |}).
  { by apply sameShape_insert with n. }
  destruct (sortKeyChanged n (patch u n)); [|done].
  eapply sameShape_trans; [exact H1|apply sameShape_resortSiblings].
Qed.

Lemma WF_applyUpdate id u s : WF s -> WF (applyUpdate id u s).
Proof. intros H. eapply WF_sameShape; [exact H|apply sameShape_applyUpdate]. Qed.

Lemma sameShape_refresh statePriority anc : forall m rs,
  sameShape {| items := m; roots := rs |}
            {| items := refreshComputedState statePriority m anc; roots := rs |}.
Proof.
  induction anc as [|a anc IH]; intros m rs; simpl; [apply sameShape_refl|].
  destruct (m !! a) as [n|] eqn:Ha; [|apply sameShape_refl].
  destruct (decide (rollup statePriority m n = computedState n)); [apply sameShape_refl|].
  eapply sameShape_trans; [|apply IH].
  by apply (sameShape_insert {| items := m; roots := rs |} a n).
Qed.

Lemma sameShape_applyStateChange statePriority getStateById id own computed s :
  sameShape s (applyStateChange statePriority getStateById id own computed s).
Proof.
  unfold applyStateChange.
  destruct (items s !! id) as [n|] eqn:Hid; [|apply sameShape_refl].
  eapply sameShape_trans; [|apply sameShape_refresh].
  by apply (sameShape_insert s id n).
Qed.

Lemma WF_applyStateChange statePriority getStateById id own computed s :
  WF s -> WF (applyStateChange statePriority getStateById id own computed s).
Proof.
  intros H. eapply WF_sameShape; [exact H|apply sameShape_applyStateChange].
Qed.

Lemma WF_expand el p : WF (store p) -> WF (store (expand el p)).
Proof.
  intros H. destruct el as [[id|]|]; simpl; try done.
  eapply WF_sameShape; [exact H|]. split; [done|]. intros k. simpl.
  rewrite lookup_alter. case_decide as Hk.
  - subst k. destruct (items (store p) !! id); simpl; done.
  - destruct (items (store p) !! k); simpl; done.
Qed.

End InvariantFacts.

Section AddInvariant.
Import Projection.
Implicit Types (m : gmap TestId.t TestNode) (s : Store) (id k c a : TestId.t).

Lemma stored_insert m id n c :
  is_Some (<[id := n]> m !! c) <-> c = id \/ is_Some (m !! c).
Proof.
  destruct (decide (c = id)) as [->|Hne].
  - rewrite lookup_insert_eq. split; eauto.
  - rewrite lookup_insert_ne by done. split; [eauto|]. by intros [?|?].
Qed.

Lemma WF_fresh_has_no_children s id c :
  WF s -> items s !! id = None ->
  is_Some (items s !! c) -> TestId.parentId c = Some id -> False.
Proof.
  intros Hwf Hid Hc Hp. destruct (wf_parent s Hwf c id Hc Hp) as [n Hn]. congruence.
Qed.

Lemma WF_add_root s id n :
  WF s -> items s !! id = None -> TestId.isRoot id = true -> children n = [] ->
  WF {| items := <[id := n]> (items s);
        roots := insertSorted (compareIds (<[id := n]> (items s))) id (roots s) |}.
Proof.
  intros Hwf Hid Hroot Hn. pose proof (isRoot_parentId id Hroot) as Hpar.
  split; simpl.
  - intros k nk c Hk. destruct (decide (k = id)) as [->|Hne].
    + rewrite lookup_insert_eq in Hk. injection Hk as <-. rewrite Hn. split.
      * by intros H%elem_of_nil.
      * intros [Hc Hp]. exfalso. apply stored_insert in Hc as [->|Hc].
        -- by eapply parentId_neq.
        -- by eapply (WF_fresh_has_no_children s id c).
    + rewrite lookup_insert_ne in Hk by done.
      rewrite (wf_children s Hwf k nk c Hk), stored_insert. split.
      * intros [Hc Hp]. eauto.
      * intros [[->|Hc] Hp]; [congruence|done].
  - intros k nk Hk. destruct (decide (k = id)) as [->|Hne].
    + rewrite lookup_insert_eq in Hk. injection Hk as <-. rewrite Hn. constructor.
    + rewrite lookup_insert_ne in Hk by done. by apply (wf_children_nodup s Hwf k).
  - intros k p Hk Hp. apply stored_insert. right.
    apply stored_insert in Hk as [->|Hk]; [congruence|].
    by apply (wf_parent s Hwf k).
  - intros k. rewrite insertSorted_elem_of, stored_insert, (wf_roots s Hwf k). split.
    + intros [->|[Hk Hp]]; eauto.
    + intros [[->|Hk] Hp]; eauto.
  - rewrite insertSorted_Permutation. apply NoDup_cons. split.
    + intros Hin. apply (wf_roots s Hwf) in Hin as [[x Hx] _]. congruence.
    + apply (wf_roots_nodup s Hwf).
  - rewrite lookup_insert_ne; [apply (wf_nonempty s Hwf)|]. by intros ->.
Qed.

Lemma WF_add_child s id n p pn cmp e :
  WF s -> items s !! id = None -> TestId.parentId id = Some p ->
  items s !! p = Some pn -> children n = [] ->
  WF {| items := <[p := setChildren (insertSorted cmp id (children pn))
                          (setExpanded e pn)]> (<[id := n]> (items s));
        roots := roots s |}.
Proof.
  intros Hwf Hid Hpar Hp Hn.
  assert (Hne : p <> id) by (by eapply parentId_neq).
  assert (Hstored : forall c,
            is_Some (<[p := setChildren (insertSorted cmp id (children pn))
                              (setExpanded e pn)]> (<[id := n]> (items s)) !! c)
            <-> c = id \/ is_Some (items s !! c)).
  { intros c. rewrite !stored_insert. split.
    - intros [->|[->|Hc]]; eauto.
    - intros [->|Hc]; eauto. }
  split; simpl.
  - intros k nk c Hk. rewrite Hstored. destruct (decide (k = p)) as [->|Hkp].
    + rewrite lookup_insert_eq in Hk. injection Hk as <-. simpl.
      rewrite insertSorted_elem_of, (wf_children s Hwf p pn c Hp). split.
      * intros [->|[Hc Hcp]]; eauto.
      * intros [[->|Hc] Hcp]; eauto.
    + rewrite lookup_insert_ne in Hk by done.
      destruct (decide (k = id)) as [->|Hki].
      * rewrite lookup_insert_eq in Hk. injection Hk as <-. rewrite Hn. split.
        -- by intros H%elem_of_nil.
        -- intros [[->|Hc] Hcp]; exfalso.
           ++ by eapply parentId_neq.
           ++ by eapply (WF_fresh_has_no_children s id c).
      * rewrite lookup_insert_ne in Hk by done.
        rewrite (wf_children s Hwf k nk c Hk). split.
        -- intros [Hc Hcp]. eauto.
        -- intros [[->|Hc] Hcp]; [congruence|done].
  - intros k nk Hk. destruct (decide (k = p)) as [->|Hkp].
    + rewrite lookup_insert_eq in Hk. injection Hk as <-. simpl.
      rewrite insertSorted_Permutation. apply NoDup_cons. split.
      * intros Hin. apply (wf_children s Hwf p pn id Hp) in Hin as [[x Hx] _].
        congruence.
      * by apply (wf_children_nodup s Hwf p).
    + rewrite lookup_insert_ne in Hk by done.
      destruct (decide (k = id)) as [->|Hki].
      * rewrite lookup_insert_eq in Hk. injection Hk as <-. rewrite Hn. constructor.
      * rewrite lookup_insert_ne in Hk by done. by apply (wf_children_nodup s Hwf k).
  - intros k q Hk Hq. apply Hstored. right. apply Hstored in Hk as [->|Hk].
    + rewrite Hpar in Hq. injection Hq as <-. eauto.
    + by apply (wf_parent s Hwf k).
  - intros k. rewrite Hstored, (wf_roots s Hwf k). split.
    + intros [Hk Hkp]. eauto.
    + intros [[->|Hk] Hkp]; [congruence|done].
  - apply (wf_roots_nodup s Hwf).
  - rewrite !lookup_insert_ne; [apply (wf_nonempty s Hwf)| |].
    + intros ->. by rewrite (wf_nonempty s Hwf) in Hid || done.
    + intros ->. by rewrite (wf_nonempty s Hwf) in Hp.
Qed.

Lemma WF_applyAdd getStateById id e item s :
  WF s -> WF (applyAdd getStateById id e item s).
Proof.
  intros Hwf. unfold applyAdd. destruct (items s !! id) as [n0|] eqn:Hid.
  { by apply WF_applyUpdate. }
  destruct (TestId.isRoot id) eqn:Hroot.
  { by apply WF_add_root. }
  destruct (TestId.parentId id) as [p|] eqn:Hpar; [|done].
  destruct (items s !! p) as [pn|] eqn:Hp; [|done].
  assert (Hm : exists e', markExpandable pn = setExpanded e' pn).
  { unfold markExpandable. destruct (expanded pn) eqn:He; eauto.
    - exists Collapsed. destruct pn; simpl in *; by subst.
    - exists Expanded. destruct pn; simpl in *; by subst. }
  destruct Hm as [e' ->]. by apply WF_add_child.
Qed.

End AddInvariant.

(** ** Removal of a subtree *)

Section RemoveFacts.
Import Projection.
Implicit Types (m : gmap TestId.t TestNode) (s : Store) (id k c a : TestId.t).

Lemma prefix_parent id k p :
  id `prefix_of` k -> k <> id -> TestId.parentId k = Some p -> id `prefix_of` p.
Proof.
  intros [t ->] Hne (seg & Heq & _)%parentId_Some.
  destruct t as [|x t _] using rev_ind; [by rewrite app_nil_r in Hne|].
  rewrite app_assoc in Heq. apply app_inj_tail in Heq as [<- _]. by exists t.
Qed.

Lemma parent_prefix_trans c p k :
  c `prefix_of` p -> TestId.parentId k = Some p -> c `prefix_of` k.
Proof. intros Hc Hp%parentId_prefix. by etrans. Qed.

(** Without the node itself, nothing below it is stored. *)
Lemma linkedBelow_absent m id :
  linkedBelow m id -> m !! id = None ->
  forall j k, length k = length id + j -> id `prefix_of` k -> m !! k = None.
Proof.
  intros HL Hid. induction j as [|j IH]; intros k Hlen Hpre.
  - assert (k = id) as -> by (symmetry; apply prefix_length_eq; [done|lia]). done.
  - destruct (m !! k) as [nk|] eqn:Hk; [|done]. exfalso.
    destruct (HL k) as (p & pn & Hp & Hpn & _); [eauto|done|intros ->; lia|].
    rewrite (IH p) in Hpn; [done| |].
    + apply parentId_length in Hp. lia.
    + eapply prefix_parent; [done| |done]. intros ->. lia.
Qed.

(** A stored node strictly below a stored node lies at or below one of
    its children. *)
Lemma linkedBelow_child m id n :
  linkedBelow m id -> m !! id = Some n ->
  forall j k, length k = length id + S j -> id `prefix_of` k -> is_Some (m !! k) ->
  exists c, c ∈ children n /\ c `prefix_of` k.
Proof.
  intros HL Hid. induction j as [|j IH]; intros k Hlen Hpre Hk.
  - destruct (HL k) as (p & pn & Hp & Hpn & Hin); [done|done|intros ->; lia|].
    assert (p = id) as ->.
    { symmetry. apply prefix_length_eq.
      - eapply prefix_parent; [done| |done]. intros ->. lia.
      - apply parentId_length in Hp. lia. }
    exists k. split; [congruence|done].
  - destruct (HL k) as (p & pn & Hp & Hpn & Hin); [done|done|intros ->; lia|].
    destruct (IH p) as (c & Hc & Hcp).
    + apply parentId_length in Hp. lia.
    + eapply prefix_parent; [done| |done]. intros ->. lia.
    + eauto.
    + exists c. split; [done|]. by eapply parent_prefix_trans.
Qed.

Lemma removeSubtree_spec fuel : forall m id,
  linkedBelow m id -> childrenBelow m -> shallowBelow m id fuel ->
  (forall k, id `prefix_of` k -> removeSubtree fuel m id !! k = None) /\
  (forall k, ~ id `prefix_of` k -> removeSubtree fuel m id !! k = m !! k).
Proof.
  induction fuel as [|fuel IH]; intros m id HL HC HF.
  - split; [|done]. intros k Hk. simpl.
    destruct (m !! k) eqn:E; [|done]. specialize (HF k). 
    assert (length k < length id + 0) by (apply HF; eauto).
    apply prefix_length in Hk. lia.
  - simpl. destruct (m !! id) as [n|] eqn:Hid.
    2: { split; [|done]. intros k Hk.
         apply (linkedBelow_absent m id HL Hid (length k - length id)); [|done].
         apply prefix_length in Hk. lia. }
    assert (Hfold : forall cs m0,
              (forall c, c ∈ cs -> TestId.parentId c = Some id) ->
              linkedBelow m0 id -> childrenBelow m0 -> shallowBelow m0 id (S fuel) ->
              (forall k, (exists c, c ∈ cs /\ c `prefix_of` k) ->
                         fold_left (removeSubtree fuel) cs m0 !! k = None) /\
              (forall k, (forall c, c ∈ cs -> ~ c `prefix_of` k) ->
                         fold_left (removeSubtree fuel) cs m0 !! k = m0 !! k)).
    { clear dependent m n. induction cs as [|c cs IHcs]; intros m0 Hcs HL0 HC0 HF0.
      - split; [|done]. intros k (c & Hc & _). by apply elem_of_nil in Hc.
      - assert (Hcp : TestId.parentId c = Some id) by (apply Hcs; by left).
        assert (Hidc : id `prefix_of` c) by (by apply parentId_prefix).
        destruct (IH m0 c) as [Hgone Hkept].
        + intros k Hk Hck Hne. apply HL0; [done|by etrans|].
          intros ->. apply parentId_length in Hcp. apply prefix_length in Hck. lia.
        + done.
        + intros k Hk Hck. apply parentId_length in Hcp.
          assert (length k < length id + S fuel) by (apply HF0; [done|by etrans]).
          lia.
        + assert (Hsub : forall k, is_Some (removeSubtree fuel m0 c !! k) ->
                    ~ c `prefix_of` k /\ removeSubtree fuel m0 c !! k = m0 !! k).
          { intros k Hk. destruct (decide (c `prefix_of` k)) as [Hck|Hck].
            - rewrite Hgone in Hk by done. by destruct Hk.
            - split; [done|by apply Hkept]. }
          destruct (IHcs (removeSubtree fuel m0 c)) as [Hgone' Hkept'].
          * intros c' Hc'. apply Hcs. by right.
          * intros k Hk Hidk Hne. destruct (Hsub k Hk) as [Hck Heq].
            rewrite Heq in Hk. destruct (HL0 k Hk Hidk Hne) as (p & pn & Hp & Hpn & Hin).
            exists p, pn. split; [done|]. split; [|done].
            rewrite Hkept; [done|]. intros Hcp'. apply Hck.
            by eapply parent_prefix_trans.
          * intros k nk c' Hk Hin. destruct (Hsub k) as [_ Heq]; [eauto|].
            rewrite Heq in Hk. by eapply HC0.
          * intros k Hk Hidk. destruct (Hsub k Hk) as [_ Heq].
            rewrite Heq in Hk. by apply HF0.
          * split.
            -- intros k (c' & Hc' & Hck). simpl.
               destruct (decide (Exists (fun c0 => c0 `prefix_of` k) cs)) as [Hex|Hnex].
               ++ apply Hgone'. apply Exists_exists in Hex. done.
               ++ rewrite Hkept'.
                  ** apply elem_of_cons in Hc' as [->|Hc']; [by apply Hgone|].
                     exfalso. apply Hnex, Exists_exists. eauto.
                  ** intros c0 Hc0 Hc0k. apply Hnex, Exists_exists. eauto.
            -- intros k Hall. simpl. rewrite Hkept'.
               ++ apply Hkept. apply Hall. by left.
               ++ intros c0 Hc0. apply Hall. by right. }
    destruct (Hfold (children n) m) as [Hgone Hkept]; [|done|done|done|].
    { intros c Hc. by eapply HC. }
    split.
    + intros k Hk. destruct (decide (k = id)) as [->|Hne]; [apply lookup_delete_eq|].
      rewrite lookup_delete_ne by done.
      destruct (m !! k) as [nk|] eqn:Hmk.
      * apply Hgone.
        apply (linkedBelow_child m id n HL Hid (length k - length id - 1)); eauto.
        assert (length id <= length k) by (by apply prefix_length).
        assert (length k <> length id).
        { intros Hl. apply Hne. symmetry. apply prefix_length_eq; [done|lia]. }
        lia.
      * destruct (decide (Exists (fun c0 => c0 `prefix_of` k) (children n))) as [Hex|Hnex].
        -- apply Hgone. apply Exists_exists in Hex. done.
        -- rewrite Hkept; [done|]. intros c0 Hc0 Hc0k. apply Hnex, Exists_exists. eauto.
    + intros k Hk. rewrite lookup_delete_ne by (intros ->; by apply Hk).
      apply Hkept. intros c Hc Hck. apply Hk.
      etrans; [|done]. apply parentId_prefix. by eapply HC.
Qed.

End RemoveFacts.

Section RemoveInvariant.
Import Projection.
Implicit Types (m : gmap TestId.t TestNode) (s : Store) (id k c a : TestId.t).

Lemma without_elem_of id l c : c ∈ without id l <-> c ∈ l /\ c <> id.
Proof.
  unfold without. rewrite !list_elem_of_In, filter_In, negb_true_iff.
  by rewrite bool_decide_eq_false.
Qed.

Lemma without_NoDup id l : NoDup l -> NoDup (without id l).
Proof.
  unfold without. induction 1 as [|x l Hx Hnd IH]; simpl; [constructor|].
  destruct (negb (bool_decide (x = id))); [|done].
  constructor; [|done]. intros Hin. apply Hx.
  apply list_elem_of_In, filter_In in Hin as [Hin _]. by apply list_elem_of_In.
Qed.

Lemma WF_childrenBelow s : WF s -> childrenBelow (items s).
Proof. intros Hwf k n c Hk Hc. by apply (wf_children s Hwf k n c Hk) in Hc as [_ ?]. Qed.

Lemma WF_linkedBelow s id : WF s -> id <> [] -> linkedBelow (items s) id.
Proof.
  intros Hwf Hid k Hk [t ->] Hne.
  destruct t as [|seg t _] using rev_ind; [by rewrite app_nil_r in Hne|].
  assert (Hp : TestId.parentId (id ++ t ++ [seg]) = Some (id ++ t)).
  { apply parentId_Some. exists seg. rewrite app_assoc. split; [done|]. by destruct id. }
  destruct (wf_parent s Hwf _ _ Hk Hp) as [pn Hpn].
  exists (id ++ t), pn. split; [done|]. split; [done|].
  by apply (wf_children s Hwf _ pn _ Hpn).
Qed.

Lemma WF_shallowBelow s id : shallowBelow (items s) id (S (maxDepth (items s))).
Proof. intros k Hk _. apply maxDepth_bound in Hk. lia. Qed.

Lemma WF_stored_nonempty s id : WF s -> is_Some (items s !! id) -> id <> [].
Proof. intros Hwf [n Hn] ->. by rewrite (wf_nonempty s Hwf) in Hn. Qed.

(** What a Remove leaves in the store. *)
Lemma applyRemove_lookup s id :
  WF s -> is_Some (items s !! id) ->
  (forall k, id `prefix_of` k -> items (applyRemove id s) !! k = None) /\
  (forall k, ~ id `prefix_of` k -> TestId.parentId id <> Some k ->
             items (applyRemove id s) !! k = items s !! k) /\
  (forall p pn, TestId.parentId id = Some p -> items s !! p = Some pn ->
     exists e, items (applyRemove id s) !! p
               = Some (setChildren (without id (children pn)) (setExpanded e pn))) /\
  roots (applyRemove id s) = without id (roots s).
Proof.
  intros Hwf Hid. pose proof (WF_stored_nonempty s id Hwf Hid) as Hne.
  destruct (removeSubtree_spec (S (maxDepth (items s))) (items s) id) as [Hgone Hkept].
  { by apply WF_linkedBelow. } { by apply WF_childrenBelow. } { apply WF_shallowBelow. }
  destruct Hid as [n Hn]. unfold applyRemove. rewrite Hn.
  remember (removeSubtree (S (maxDepth (items s))) (items s) id) as m' eqn:Hm'.
  clear Hm'. cbn [items roots].
  destruct (TestId.parentId id) as [p|] eqn:Hp.
  - assert (Hpid : ~ id `prefix_of` p).
    { intros H%prefix_length. apply parentId_length in Hp. lia. }
    destruct (wf_parent s Hwf id p) as [pn Hpn]; [eauto|done|].
    rewrite (Hkept p Hpid), Hpn.
    repeat split.
    + intros k Hk. rewrite lookup_insert_ne by (by intros ->). by apply Hgone.
    + intros k Hk Hkp. rewrite lookup_insert_ne by congruence. by apply Hkept.
    + intros p' pn' [= <-] Hpn'. rewrite Hpn in Hpn'. injection Hpn' as <-.
      rewrite lookup_insert_eq.
      destruct (without id (children pn)) eqn:Hw.
      * exists NotExpandable. done.
      * exists (expanded pn). by destruct pn.
  - repeat split; try done. intros k Hk _. by apply Hkept.
Qed.

Lemma applyRemove_stored s id k :
  WF s -> is_Some (items s !! id) ->
  is_Some (items (applyRemove id s) !! k)
  <-> is_Some (items s !! k) /\ ~ id `prefix_of` k.
Proof.
  intros Hwf Hid. destruct (applyRemove_lookup s id Hwf Hid) as (Hgone & Hkept & Hpar & _).
  destruct (decide (id `prefix_of` k)) as [Hk|Hk].
  - rewrite (Hgone k Hk). split; [by intros [? ?]|by intros [_ ?]].
  - destruct (decide (TestId.parentId id = Some k)) as [Hp|Hp].
    + destruct (wf_parent s Hwf id k Hid Hp) as [pn Hpn].
      destruct (Hpar k pn Hp Hpn) as [e ->]. rewrite Hpn. split; eauto.
    + rewrite (Hkept k Hk Hp). split; [eauto|by intros [? _]].
Qed.

Lemma WF_applyRemove id s : WF s -> WF (applyRemove id s).
Proof.
  intros Hwf. destruct (items s !! id) as [n|] eqn:Hn.
  2: { unfold applyRemove. by rewrite Hn. }
  assert (Hid : is_Some (items s !! id)) by eauto.
  destruct (applyRemove_lookup s id Hwf Hid) as (Hgone & Hkept & Hpar & Hroots).
  pose proof (applyRemove_stored s id) as Hst.
  assert (Hsib : forall c, TestId.parentId c = TestId.parentId id ->
            id `prefix_of` c -> c = id).
  { intros c Hc Hpre. symmetry. apply prefix_length_eq; [done|].
    destruct (TestId.parentId id) as [p|] eqn:Hp.
    - apply parentId_length in Hp, Hc. lia.
    - apply parentId_None in Hp, Hc.
      pose proof (WF_stored_nonempty s id Hwf Hid). destruct id; simpl in *; [done|lia]. }
  split.
  - intros k nk' c Hk'. rewrite (Hst c Hwf Hid).
    assert (Hks : is_Some (items (applyRemove id s) !! k)) by eauto.
    apply (Hst k Hwf Hid) in Hks as [[nk Hnk] Hkpre].
    destruct (decide (TestId.parentId id = Some k)) as [Hp|Hp].
    + destruct (Hpar k nk Hp Hnk) as [e Heq]. rewrite Heq in Hk'.
      injection Hk' as <-. simpl.
      rewrite without_elem_of, (wf_children s Hwf k nk c Hnk). split.
      * intros [[Hc Hcp] Hne]. repeat split; try done.
        intros Hpre. apply Hne, Hsib; [congruence|done].
      * intros [[Hc Hcpre] Hcp]. repeat split; try done.
        intros ->. by apply Hcpre.
    + rewrite (Hkept k Hkpre Hp), Hnk in Hk'. injection Hk' as <-.
      rewrite (wf_children s Hwf k nk c Hnk). split.
      * intros [Hc Hcp]. repeat split; try done. intros Hpre.
        destruct (decide (c = id)) as [->|Hne]; [congruence|].
        apply Hkpre. by eapply prefix_parent.
      * intros [[Hc _] Hcp]. done.
  - intros k nk' Hk'.
    assert (Hks : is_Some (items (applyRemove id s) !! k)) by eauto.
    apply (Hst k Hwf Hid) in Hks as [[nk Hnk] Hkpre].
    destruct (decide (TestId.parentId id = Some k)) as [Hp|Hp].
    + destruct (Hpar k nk Hp Hnk) as [e Heq]. rewrite Heq in Hk'.
      injection Hk' as <-. simpl. apply without_NoDup.
      by apply (wf_children_nodup s Hwf k).
    + rewrite (Hkept k Hkpre Hp), Hnk in Hk'. injection Hk' as <-.
      by apply (wf_children_nodup s Hwf k).
  - intros k q Hk Hq. apply (Hst k Hwf Hid) in Hk as [Hk Hkpre].
    apply (Hst q Hwf Hid). split; [by apply (wf_parent s Hwf k)|].
    intros Hpre. apply Hkpre. by eapply parent_prefix_trans.
  - intros k. rewrite Hroots, without_elem_of, (wf_roots s Hwf k), (Hst k Hwf Hid).
    split.
    + intros [[Hk Hkp] Hne]. repeat split; try done. intros Hpre.
      apply Hne. symmetry. apply prefix_length_eq; [done|].
      apply parentId_None in Hkp.
      pose proof (WF_stored_nonempty s id Hwf Hid). destruct id; simpl in *; [done|lia].
    + intros [[Hk Hkpre] Hkp]. repeat split; try done. intros ->. by apply Hkpre.
  - rewrite Hroots. apply without_NoDup, (wf_roots_nodup s Hwf).
  - destruct (items (applyRemove id s) !! []) eqn:E; [|done].
    assert (Hs : is_Some (items (applyRemove id s) !! [])) by eauto.
    apply (Hst [] Hwf Hid) in Hs as [[x Hx] _].
    by rewrite (wf_nonempty s Hwf) in Hx.
Qed.

Lemma WF_applyOp getStateById op s : WF s -> WF (applyOp getStateById op s).
Proof.
  destruct op; simpl.
  - apply WF_applyAdd.
  - apply WF_applyUpdate.
  - apply WF_applyRemove.
Qed.

Lemma WF_fold getStateById ops : forall s,
  WF s -> WF (fold_left (fun acc op => applyOp getStateById op acc) ops s).
Proof.
  induction ops as [|op ops IH]; intros s Hwf; simpl; [done|].
  by apply IH, WF_applyOp.
Qed.

Lemma WF_applyBatch getStateById batch s :
  WF s -> WF (applyBatch getStateById batch s).
Proof. intros Hwf. unfold applyBatch. by do 3 apply WF_fold. Qed.

(** Every projection the harness can reach has a well-formed store. *)
Lemma Reachable_WF p : Reachable p -> WF (store p).
Proof.
  induction 1; simpl.
  - apply WF_empty.
  - by apply WF_applyBatch.
  - by apply WF_applyStateChange.
  - done.
  - by apply WF_expand.
Qed.

Lemma Reachable_initial : Reachable Samples.initial.
Proof.
  unfold Samples.initial, Samples.blank.
  apply Reachable_applyTo, Reachable_applyDiff, Reachable_blank.
Qed.

Lemma Reachable_expandedA : Reachable Samples.expandedA.
Proof.
  unfold Samples.expandedA.
  apply Reachable_applyTo, Reachable_expand, Reachable_initial.
Qed.

End RemoveInvariant.

(** ** Removal and the rendered tree *)

Section RemoveRendered.
Import Projection.
Implicit Types (m : gmap TestId.t TestNode) (s : Store) (id k c a : TestId.t).

Lemma errorLeaf_elements id n el :
  el ∈ flat_map elementsOf (errorLeaf id n) -> exists msg, el = ErrorElement id msg.
Proof.
  unfold errorLeaf. destruct (error n) as [msg|]; [|by intros H%elem_of_nil].
  destruct (String.eqb msg EmptyString); [by intros H%elem_of_nil|].
  simpl. intros H. apply list_elem_of_singleton in H. eauto.
Qed.

Lemma renderNode_elements_stored fuel m : forall id k,
  TestElement k ∈ flat_map elementsOf (renderNode fuel m id) -> is_Some (m !! k).
Proof.
  induction fuel as [|fuel IH]; intros id k; simpl; [by intros H%elem_of_nil|].
  destruct (m !! id) as [n|] eqn:Hn; [|by intros H%elem_of_nil].
  simpl. rewrite app_nil_r. intros [[= ->]|Hin]%elem_of_cons; [eauto|].
  destruct (expanded n); try by apply elem_of_nil in Hin.
  rewrite flat_map_app in Hin. apply elem_of_app in Hin as [Hin|Hin].
  - apply errorLeaf_elements in Hin as [msg Hmsg]. done.
  - apply list_elem_of_In, in_flat_map in Hin as (r & Hr & Hin).
    apply in_flat_map in Hr as (c & _ & Hr).
    apply (IH c). apply list_elem_of_In, in_flat_map. eauto.
Qed.

(** Only stored test items are rendered. *)
Lemma rendered_stored s k :
  TestElement k ∈ renderedElements s -> is_Some (items s !! k).
Proof.
  unfold renderedElements, render.
  assert (Hforest : forall l,
            TestElement k ∈ flat_map elementsOf
              (flat_map (renderNode (S (maxDepth (items s))) (items s)) l) ->
            is_Some (items s !! k)).
  { intros l Hin. apply list_elem_of_In, in_flat_map in Hin as (r & Hr & Hin).
    apply in_flat_map in Hr as (c & _ & Hr).
    apply (renderNode_elements_stored (S (maxDepth (items s))) _ c).
    apply list_elem_of_In, in_flat_map. eauto. }
  destruct (roots s) as [|r [|r' rs]].
  - by intros H%elem_of_nil.
  - destruct (items s !! r) as [n|]; [|by intros H%elem_of_nil].
    rewrite flat_map_app. intros [Hin|Hin]%elem_of_app.
    + apply errorLeaf_elements in Hin as [msg Hmsg]. done.
    + by apply (Hforest (children n)).
  - apply Hforest.
Qed.

(** C4. A Remove of a stored node deletes the node and every node below it
    from the Node Store and keeps every other node stored; none of the
    deleted nodes is in the rendered tree afterwards.  In the tree with the
    items a (children aa, ab) and b, a expanded, deleting ab renders
    [a [aa]; b]. *)
Theorem remove_deletes_subtree s id :
  WF s -> is_Some (items s !! id) ->
  (forall k, id `prefix_of` k -> items (applyRemove id s) !! k = None) /\
  (forall k, ~ id `prefix_of` k ->
     (is_Some (items (applyRemove id s) !! k) <-> is_Some (items s !! k))) /\
  (forall k, id `prefix_of` k -> TestElement k ∉ renderedElements (applyRemove id s)) /\
  WF (applyRemove id s) /\
  map labelsOf
    (tree (applyTo (applyDiff Samples.noResults [Remove Samples.id_ab] Samples.expandedA)))
  = Samples.treeOf ["aa"%string].
Proof.
  intros Hwf Hid. destruct (applyRemove_lookup s id Hwf Hid) as (Hgone & _).
  split; [exact Hgone|]. split; [|split; [|split]].
  - intros k Hk. rewrite (applyRemove_stored s id k Hwf Hid). split; [by intros [? _]|done].
  - intros k Hk Hin. apply rendered_stored in Hin as [x Hx].
    by rewrite (Hgone k Hk) in Hx.
  - by apply WF_applyRemove.
  - by vm_compute.
Qed.

Lemma remove_deletes_subtree_witness :
  items (applyRemove Samples.id_a (store Samples.expandedA)) !! Samples.id_aa = None /\
  TestElement Samples.id_ab
    ∉ renderedElements (applyRemove Samples.id_a (store Samples.expandedA)).
Proof.
  assert (Hwf : WF (store Samples.expandedA)).
  { apply Reachable_WF, Reachable_expandedA. }
  assert (Hid : is_Some (items (store Samples.expandedA) !! Samples.id_a)).
  { eexists. vm_compute. reflexivity. }
  destruct (remove_deletes_subtree (store Samples.expandedA) Samples.id_a Hwf Hid)
    as (Hgone & _ & Hrendered & _).
  split.
  - apply Hgone. by exists ["id-aa"%string].
  - apply Hrendered. by exists ["id-ab"%string].
Defined.

End RemoveRendered.

(** ** Changes below collapsed nodes *)

Section CollapsedFacts.
Import Projection.



End CollapsedFacts.

(** ** Sort order of siblings *)

Section CompareFacts.
Import Projection.
Implicit Types (m : gmap TestId.t TestNode) (s : Store) (id k c x y z : TestId.t).










End CompareFacts.

Section SiblingOrder.
Import Projection.
Implicit Types (m : gmap TestId.t TestNode) (s : Store) (id k c x y z : TestId.t).








End SiblingOrder.

Section SiblingOrderExamples.
Import Projection.



End SiblingOrderExamples.

(** ** State propagation *)

Section StateFacts.
Import Projection.
Variable statePriority : TestResultState -> nat.
Hypothesis unset_lowest : forall st, statePriority Unset <= statePriority st.
Implicit Types (m : gmap TestId.t TestNode) (s : Store) (id k c a : TestId.t).

Local Notation prio := statePriority.
Local Notation worst := (Projection.worst statePriority).
Local Notation rollup := (Projection.rollup statePriority).
















End StateFacts.

Section StateTheorem.
Import Projection.
Variable statePriority : TestResultState -> nat.
Hypothesis unset_lowest : forall st, statePriority Unset <= statePriority st.
Implicit Types (m : gmap TestId.t TestNode) (s : Store) (id k c a : TestId.t).

Local Notation prio := statePriority.
Local Notation rollup := (Projection.rollup statePriority).




End StateTheorem.

Section StateExamples.
Import Projection.




End StateExamples.

(* ===================================================================== *)
(** * Part III: further properties of the sources *)
(* ===================================================================== *)

(** ** Collapse-state lookup below a reached node *)

Section CollapseStateCompose.
Import CollapseState.

(** X12. The lookup of a path that continues a path present in the tree
    is the lookup of the continuation in the node the present part
    reaches; once a segment is absent, every longer path is [undefined]
    as well; and once a segment is looked up in a children map that has a
    test named "hasOwnProperty", every longer path throws as well. *)
Theorem isCollapsed_continues_below delimiter serialized (path rest : list string) :
  (forall target, Reaches serialized path target ->
     isCollapsedInSerializedTestTree delimiter serialized (inl (path ++ rest))
     = isCollapsedInSerializedTestTree delimiter target (inl rest)) /\
  (SegmentAbsent serialized path ->
     isCollapsedInSerializedTestTree delimiter serialized (inl (path ++ rest))
     = Returns None) /\
  (SegmentShadowed serialized path ->
     isCollapsedInSerializedTestTree delimiter serialized (inl (path ++ rest))
     = Throws).
Proof.
  unfold isCollapsedInSerializedTestTree. split; [|split].
  - intros target Hr. by apply walk_continues.
  - intros (pre & part & post & reached & -> & Hr & Hl). apply walk_absent.
    exists pre, part, (post ++ rest), reached. split; [|done].
    by rewrite <- app_assoc.
  - intros (pre & part & post & reached & -> & Hr & Hs). apply walk_shadowed.
    exists pre, part, (post ++ rest), reached. split; [|done].
    by rewrite <- app_assoc.
Qed.

Lemma isCollapsed_continues_below_witness :
  isCollapsedInSerializedTestTree ":" Samples.sampleState
    (inl (["ctrlId"%string] ++ ["id-a"%string])) = Returns (Some true) /\
  isCollapsedInSerializedTestTree ":" Samples.sampleState
    (inl (["ctrlId"%string; "id-x"%string] ++ ["id-y"%string])) = Returns None /\
  isCollapsedInSerializedTestTree ":" Samples.shadowedState
    (inl (["id-b"%string] ++ ["id-y"%string])) = Throws.
Proof.
  split; [|split].
  - destruct (isCollapsed_continues_below ":" Samples.sampleState
                ["ctrlId"%string] ["id-a"%string]) as [Hbelow _].
    eapply eq_trans; [apply Hbelow|].
    + eapply Reaches_step; [split; reflexivity|reflexivity|apply Reaches_here].
    + reflexivity.
  - destruct (isCollapsed_continues_below ":" Samples.sampleState
                ["ctrlId"%string; "id-x"%string] ["id-y"%string]) as (_ & Habsent & _).
    apply Habsent. eexists ["ctrlId"%string], "id-x"%string, [], _.
    split; [reflexivity|]. split.
    + eapply Reaches_step; [split; reflexivity|reflexivity|apply Reaches_here].
    + right. eexists. split; [split; reflexivity|reflexivity].
  - destruct (isCollapsed_continues_below ":" Samples.shadowedState
                ["id-b"%string] ["id-y"%string]) as (_ & _ & Hshadowed).
    apply Hshadowed. exists [], "id-b"%string, [], Samples.shadowedState.
    split; [reflexivity|]. split; [apply Reaches_here|].
    eexists. split; [reflexivity|]. eexists. vm_compute. reflexivity.
Defined.

(** X13. [isCollapsedInSerializedTestTree] treats a string id as the
    [TestId] it parses to; walking the path segments through the nested
    children maps, it returns [undefined] as soon as a segment is absent (a
    missing children map included), it throws as soon as a segment is
    looked up in a children map that has a test named "hasOwnProperty",
    and otherwise it returns the [collapsed] field of the node it reaches,
    which may itself be [undefined]; one of the three cases always
    applies. *)
Theorem isCollapsed_walks_path delimiter serialized :
  (forall s : string,
     isCollapsedInSerializedTestTree delimiter serialized (inr s)
     = isCollapsedInSerializedTestTree delimiter serialized
         (inl (TestId.fromString delimiter s))) /\
  (forall id : TestId.t,
     (SegmentAbsent serialized id ->
        isCollapsedInSerializedTestTree delimiter serialized (inl id)
        = Returns None) /\
     (SegmentShadowed serialized id ->
        isCollapsedInSerializedTestTree delimiter serialized (inl id) = Throws) /\
     (forall target, Reaches serialized id target ->
        isCollapsedInSerializedTestTree delimiter serialized (inl id)
        = Returns (collapsed target)) /\
     (SegmentAbsent serialized id \/ SegmentShadowed serialized id \/
      exists target, Reaches serialized id target)).
Proof.
  split; [reflexivity|]. intros id. unfold isCollapsedInSerializedTestTree.
  split; [apply walk_absent|]. split; [apply walk_shadowed|].
  split; [intros target; apply walk_reaches|apply reaches_absent_or_shadowed].
Qed.

Lemma isCollapsed_walks_path_witness :
  isCollapsedInSerializedTestTree ":" Samples.sampleState (inr "ctrlId:id-a"%string)
  = Returns (Some true) /\
  isCollapsedInSerializedTestTree ":" Samples.sampleState (inr "ctrlId:id-b"%string)
  = Returns None /\
  isCollapsedInSerializedTestTree ":" Samples.sampleState
    (inr "ctrlId:id-a:id-aa"%string) = Returns None /\
  isCollapsedInSerializedTestTree ":" Samples.shadowedState (inr "id-b"%string)
  = Throws.
Proof.
  destruct (isCollapsed_walks_path ":" Samples.sampleState) as [Hparse Hwalk].
  destruct (isCollapsed_walks_path ":" Samples.shadowedState) as [Hparse' Hwalk'].
  rewrite !Hparse, Hparse'.
  split; [|split; [|split]].
  - destruct (Hwalk ["ctrlId"; "id-a"]%string) as (_ & _ & Hreach & _).
    apply (Hreach (mkState (Some true) None)).
    eapply Reaches_step; [split; reflexivity|reflexivity|].
    eapply Reaches_step; [split; reflexivity|reflexivity|].
    apply Reaches_here.
  - destruct (Hwalk ["ctrlId"; "id-b"]%string) as (_ & _ & Hreach & _).
    apply (Hreach (mkState None (Some ∅))).
    eapply Reaches_step; [split; reflexivity|reflexivity|].
    eapply Reaches_step; [split; reflexivity|reflexivity|].
    apply Reaches_here.
  - destruct (Hwalk ["ctrlId"; "id-a"; "id-aa"]%string) as (Habsent & _).
    apply Habsent.
    exists ["ctrlId"; "id-a"]%string, "id-aa"%string, [], (mkState (Some true) None).
    split; [reflexivity|]. split; [|by left].
    eapply Reaches_step; [split; reflexivity|reflexivity|].
    eapply Reaches_step; [split; reflexivity|reflexivity|].
    apply Reaches_here.
  - destruct (Hwalk' ["id-b"%string]) as (_ & Hshadowed & _).
    apply Hshadowed. exists [], "id-b"%string, [], Samples.shadowedState.
    split; [reflexivity|]. split; [apply Reaches_here|].
    eexists. split; [reflexivity|]. eexists. vm_compute. reflexivity.
Defined.

End CollapseStateCompose.

(** ** Forwarding a port, then closing the tunnel *)

Section ForwardingFacts.
Import ExtHostTunnelService Forwarding.

Lemma tunnelAt_forwarded r tunnel svc h p :
  tunnelAt (forwarded r tunnel svc) h p
  = if decide ((h, p) = (host r, port r)) then Some tunnel else tunnelAt svc h p.
Proof.
  unfold forwarded, tunnelAt. simpl.
  destruct (decide (h = host r)) as [->|Hh].
  - rewrite lookup_insert_eq.
    destruct (_extensionTunnels svc !! host r) as [hostMap|] eqn:Hhost; simpl.
    + rewrite Hhost. simpl. destruct (decide (p = port r)) as [->|Hp].
      * rewrite lookup_insert_eq. by rewrite decide_True.
      * rewrite lookup_insert_ne by done. rewrite decide_False by congruence. done.
    + rewrite lookup_insert_eq. simpl. destruct (decide (p = port r)) as [->|Hp].
      * rewrite lookup_insert_eq. by rewrite decide_True.
      * rewrite lookup_insert_ne by done. rewrite decide_False by congruence.
        apply lookup_empty.
  - rewrite lookup_insert_ne by done. rewrite decide_False by congruence.
    destruct (_extensionTunnels svc !! host r) as [hostMap|] eqn:Hhost; simpl; [done|].
    by rewrite lookup_insert_ne.
Qed.

(** X10. Once the provider's tunnel is stored for a remote, it is the tunnel
    found there, whatever was stored there before, and no other entry
    changes; [$closeTunnel] for the remote then disposes exactly this
    tunnel, so that a tunnel it replaced is dropped without being
    disposed, and leaves every other entry as it was before the forward. *)
Theorem forward_then_close r tunnel svc :
  tunnelAt (forwarded r tunnel svc) (host r) (port r) = Some tunnel /\
  (forall h p, (h, p) <> (host r, port r) ->
     tunnelAt (forwarded r tunnel svc) h p = tunnelAt svc h p) /\
  disposed (forwarded r tunnel svc) = disposed svc /\
  disposed (closeTunnel r (forwarded r tunnel svc)) = disposed svc ++ [tunnel] /\
  tunnelAt (closeTunnel r (forwarded r tunnel svc)) (host r) (port r) = None /\
  (forall h p, (h, p) <> (host r, port r) ->
     tunnelAt (closeTunnel r (forwarded r tunnel svc)) h p = tunnelAt svc h p) /\
  is_Some (_extensionTunnels (closeTunnel r (forwarded r tunnel svc)) !! host r).
Proof.
  assert (Hat : tunnelAt (forwarded r tunnel svc) (host r) (port r) = Some tunnel).
  { rewrite tunnelAt_forwarded. by rewrite decide_True. }
  assert (Hother : forall h p, (h, p) <> (host r, port r) ->
            tunnelAt (forwarded r tunnel svc) h p = tunnelAt svc h p).
  { intros h p Hne. rewrite tunnelAt_forwarded. by rewrite decide_False. }
  split; [done|]. split; [done|]. split; [done|].
  unfold tunnelAt in Hat.
  destruct (_extensionTunnels (forwarded r tunnel svc) !! host r) as [hostMap|] eqn:Hhost;
    [|done].
  split; [|split; [|split]].
  - unfold closeTunnel. by rewrite Hhost, Hat.
  - unfold closeTunnel, tunnelAt. rewrite Hhost, Hat. simpl.
    rewrite lookup_insert_eq. apply lookup_delete_eq.
  - intros h p Hne. rewrite tunnelAt_closeTunnel_other by done. by apply Hother.
  - unfold closeTunnel. rewrite Hhost, Hat. simpl. rewrite lookup_insert_eq. eauto.
Qed.

(** X11. Closing the tunnel of a remote a second time changes nothing:
    the tunnel is disposed once. *)
Theorem closeTunnel_twice r svc :
  closeTunnel r (closeTunnel r svc) = closeTunnel r svc.
Proof.
  unfold closeTunnel at 2 3.
  destruct (_extensionTunnels svc !! host r) as [hostMap|] eqn:Hhost.
  - destruct (hostMap !! port r) as [tunnel|] eqn:Hport.
    + unfold closeTunnel. cbn [_extensionTunnels].
      by rewrite lookup_insert_eq, lookup_delete_eq.
    + unfold closeTunnel. by rewrite Hhost, Hport.
  - unfold closeTunnel. by rewrite Hhost.
Qed.

End ForwardingFacts.

Lemma forward_then_close_witness :
  ExtHostTunnelService.disposed
    (ExtHostTunnelService.closeTunnel MoreSamples.remote3000
       (Forwarding.forwarded MoreSamples.remote3000 MoreSamples.providedTunnel
          Samples.sampleService))
  = [MoreSamples.providedTunnel] /\
  ExtHostTunnelService.tunnelAt
    (ExtHostTunnelService.closeTunnel MoreSamples.remote3000
       (Forwarding.forwarded MoreSamples.remote3000 MoreSamples.providedTunnel
          Samples.sampleService)) "localhost" 8080
  = Some Samples.tunnel8080.
Proof.
  destruct (forward_then_close MoreSamples.remote3000 MoreSamples.providedTunnel
              Samples.sampleService) as (_ & _ & _ & Hdisposed & _ & Hother & _).
  split; [exact Hdisposed|].
  rewrite Hother; [vm_compute; reflexivity|]. intros Heq. discriminate Heq.
Defined.

(** ** The connection table read from /proc/net/tcp *)

Section ConnectionTableFacts.
Import JSString CandidateFinder.

Lemma nth_error_lookup {A} (l : list A) i : nth_error l i = l !! i.
Proof. revert i. induction l as [|x l IH]; intros [|i]; simpl; auto. Qed.

Lemma splitWhiteSpaceFrom_pieces inRun s :
  Forall (fun piece => allChars isNotWhiteSpace piece = true)
         (splitWhiteSpaceFrom inRun s).
Proof.
  revert inRun. induction s as [|c rest IH]; intros inRun; simpl.
  - by constructor.
  - destruct (JS.isWhiteSpace c) eqn:Hc.
    + destruct inRun; [apply IH|]. constructor; [done|apply IH].
    + specialize (IH false). destruct (splitWhiteSpaceFrom false rest) as [|piece pieces].
      * constructor; [|done]. simpl. unfold isNotWhiteSpace. by rewrite Hc.
      * inversion IH as [|? ? Hpiece Hpieces]; subst. constructor; [|done].
        simpl. unfold isNotWhiteSpace at 1. by rewrite Hc.
Qed.

Lemma indexToString_starts_with_digit i :
  exists c rest, indexToString i = String c rest /\ isDigit c = true.
Proof.
  unfold indexToString. destruct (Nat.to_uint i); simpl; eauto.
Qed.

Lemma digit_first_is_column_key c rest :
  isDigit c = true ->
  retained (String c rest) = true /\
  String c rest <> "st"%string /\ String c rest <> "local_address"%string.
Proof.
  intros H.
  destruct c as [[|] [|] [|] [|] [|] [|] [|] [|]]; vm_compute in H;
    try discriminate H; clear H; (split; [reflexivity|split; discriminate]).
Qed.

Lemma columnKey_cases names i :
  (names !! i = Some (columnKey names i) /\ columnKey names i <> EmptyString) \/
  columnKey names i = indexToString i.
Proof.
  unfold columnKey. rewrite nth_error_lookup.
  destruct (names !! i) as [name|]; [|by right].
  destruct (String.eqb_spec name EmptyString) as [->|Hne]; [by right|by left].
Qed.

Lemma columnKey_retained names i :
  Forall (fun name => retained name = true) names ->
  retained (columnKey names i) = true /\ columnKey names i <> EmptyString.
Proof.
  intros Hall. destruct (columnKey_cases names i) as [[Hi Hne]|Hi].
  - split; [|done]. rewrite Forall_forall in Hall. apply Hall.
    eapply list_elem_of_lookup_2, Hi.
  - rewrite Hi. destruct (indexToString_starts_with_digit i) as (c & rest & -> & Hc).
    split; [|done]. by apply digit_first_is_column_key.
Qed.

Lemma columnKey_named names i name :
  name = "st"%string \/ name = "local_address"%string ->
  columnKey names i = name <-> names !! i = Some name.
Proof.
  intros Hname. split.
  - intros Hk. destruct (columnKey_cases names i) as [[Hi _]|Hi]; [by rewrite <- Hk|].
    destruct (indexToString_starts_with_digit i) as (c & rest & Hs & Hc).
    apply (digit_first_is_column_key c rest) in Hc as (_ & Hst & Hla).
    rewrite <- Hs, <- Hi, Hk in Hst, Hla. by destruct Hname.
  - intros Hi. unfold columnKey. rewrite nth_error_lookup, Hi.
    by destruct Hname as [-> | ->].
Qed.

Lemma setProperty_lookup key value obj k :
  setProperty key value obj !! k
  = if decide (key = k /\ k <> "__proto__"%string) then Some value else obj !! k.
Proof.
  unfold setProperty. destruct (String.eqb_spec key "__proto__") as [->|Hne].
  - rewrite decide_False; [done|]. by intros [-> ?].
  - destruct (decide (key = k)) as [->|Hk].
    + rewrite lookup_insert_eq. by rewrite decide_True.
    + rewrite lookup_insert_ne by done. rewrite decide_False; [done|]. by intros [? _].
Qed.

(** The value a row holds for a key is the one of the last index with
    that key; the key "__proto__" is never stored. *)
Lemma fillRow_lookup names values : forall i obj k v,
  fillRow names i values obj !! k = Some v <->
  (obj !! k = Some v /\
   (k = "__proto__"%string \/
    forall j, j < length values -> columnKey names (i + j) <> k)) \/
  (k <> "__proto__"%string /\
   exists j, values !! j = Some v /\ columnKey names (i + j) = k /\
     forall j', j < j' < length values -> columnKey names (i + j') <> k).
Proof.
  induction values as [|value rest IH]; intros i obj k v; simpl.
  - split.
    + intros Hk. left. split; [done|]. right. intros j Hj. lia.
    + intros [[Hk _]|(_ & j & Hj & _)]; [done|]. by rewrite lookup_nil in Hj.
  - rewrite IH. rewrite setProperty_lookup. split.
    + intros [[Hk Hnone]|(Hp & j & Hj & Hkey & Hlast)].
      * destruct (decide (columnKey names i = k /\ k <> "__proto__"%string))
          as [[Hkey Hp]|Hno].
        -- right. split; [done|]. exists 0. injection Hk as ->. split; [done|].
           rewrite Nat.add_0_r. split; [done|]. intros j' Hj'.
           destruct Hnone as [Hproto|Hnone]; [done|].
           replace (i + j') with (S i + (j' - 1)) by lia. apply Hnone. lia.
        -- left. split; [done|]. destruct Hnone as [Hproto|Hnone]; [by left|].
           destruct (decide (k = "__proto__"%string)) as [Hproto|Hp]; [by left|].
           right. intros j Hj. destruct j as [|j].
           ++ rewrite Nat.add_0_r. intros Hkey. by apply Hno.
           ++ replace (i + S j) with (S i + j) by lia. apply Hnone. lia.
      * right. split; [done|]. exists (S j). split; [done|].
        replace (i + S j) with (S i + j) by lia. split; [done|].
        intros j' Hj'. replace (i + j') with (S i + (j' - 1)) by lia.
        apply Hlast. lia.
    + intros [[Hk Hnone]|(Hp & j & Hj & Hkey & Hlast)].
      * left. rewrite decide_False.
        -- split; [done|]. destruct Hnone as [Hproto|Hnone]; [by left|]. right.
           intros j Hj. replace (S i + j) with (i + S j) by lia. apply Hnone. lia.
        -- intros [Hkey Hp]. destruct Hnone as [Hproto|Hnone]; [done|].
           apply (Hnone 0); [lia|]. by rewrite Nat.add_0_r.
      * destruct j as [|j].
        -- left. rewrite Nat.add_0_r in Hkey. simpl in Hj. injection Hj as ->.
           rewrite decide_True by done. split; [done|]. right. intros j Hj.
           replace (S i + j) with (i + S j) by lia. apply Hlast. lia.
        -- right. split; [done|]. exists j. split; [done|].
           replace (S i + j) with (i + S j) by lia. split; [done|].
           intros j' Hj'. replace (S i + j') with (i + S j') by lia.
           apply Hlast. lia.
Qed.

Lemma fillRow_has_key names values j k :
  j < length values -> columnKey names j = k -> k <> "__proto__"%string ->
  is_Some (fillRow names 0 values ∅ !! k).
Proof.
  intros Hj Hkey Hp.
  (* the last index with the key *)
  assert (Hlast : exists j0, j0 < length values /\ columnKey names j0 = k /\
            forall j', j0 < j' < length values -> columnKey names j' <> k).
  { remember (length values - j) as d eqn:Hd. revert j Hj Hkey Hd.
    induction (lt_wf d) as [d _ IH]. intros j Hj Hkey Hd.
    destruct (decide (Exists (fun j' => columnKey names j' = k)
                             (seq (S j) (length values - S j)))) as [Hex|Hno].
    - apply Exists_exists in Hex as (j' & Hin & Hk').
      apply elem_of_seq in Hin. apply (IH (length values - j')) with j'; lia || done.
    - exists j. split; [done|]. split; [done|]. intros j' Hj' Hk'. apply Hno.
      apply Exists_exists. exists j'. split; [|done]. apply elem_of_seq. lia. }
  destruct Hlast as (j0 & Hj0 & Hkey0 & Hlast).
  destruct (lookup_lt_is_Some_2 values j0 Hj0) as [v Hv]. exists v.
  apply fillRow_lookup. right. split; [done|]. exists j0. simpl. eauto.
Qed.

Lemma loadConnectionTable_rows stdout :
  loadConnectionTable stdout
  = map (fun line => fillRow (columnsOf stdout) 0 (fieldsOf line) ∅) (dataLinesOf stdout).
Proof.
  unfold loadConnectionTable, columnsOf, dataLinesOf.
  by destruct (JS.split "010" (trim stdout)).
Qed.

Lemma namesOf_retained header : Forall (fun name => retained name = true) (namesOf header).
Proof.
  unfold namesOf. apply Forall_forall. intros name Hin.
  apply list_elem_of_In, filter_In in Hin. tauto.
Qed.

Lemma columnsOf_retained stdout :
  Forall (fun name => retained name = true) (columnsOf stdout).
Proof.
  unfold columnsOf. destruct (JS.split "010" (trim stdout)); [done|apply namesOf_retained].
Qed.

(** X1. No row of [loadConnectionTable] has a field named "rx_queue",
    "tm->when" or "__proto__", or a field with an empty name, whatever the
    text; and no value contains white space. *)
Theorem loadConnectionTable_fields stdout (row : gmap string string) key value :
  row ∈ loadConnectionTable stdout -> row !! key = Some value ->
  key <> "rx_queue"%string /\ key <> "tm->when"%string /\
  key <> "__proto__"%string /\ key <> EmptyString /\
  allChars isNotWhiteSpace value = true.
Proof.
  rewrite loadConnectionTable_rows. intros Hrow Hkey.
  apply list_elem_of_fmap in Hrow as (line & -> & _).
  apply fillRow_lookup in Hkey as [[Hempty _]|(Hp & j & Hj & Hk & _)];
    [by rewrite lookup_empty in Hempty|].
  destruct (columnKey_retained (columnsOf stdout) (0 + j) (columnsOf_retained stdout))
    as [Hret Hne].
  rewrite Hk in Hret, Hne.
  assert (Hvalue : allChars isNotWhiteSpace value = true).
  { pose proof (splitWhiteSpaceFrom_pieces false (trim line)) as Hall.
    rewrite Forall_forall in Hall. apply Hall. eapply list_elem_of_lookup_2, Hj. }
  repeat split; try done.
  - intros ->. discriminate Hret.
  - intros ->. discriminate Hret.
Qed.

Lemma loadConnectionTable_fields_witness :
  "st"%string <> "rx_queue"%string /\ "st"%string <> "tm->when"%string /\
  "st"%string <> "__proto__"%string /\ "st"%string <> EmptyString /\
  allChars isNotWhiteSpace "0A" = true.
Proof.
  apply (loadConnectionTable_fields MoreSamples.queueTable
           (fillRow (columnsOf MoreSamples.queueTable) 0
              (fieldsOf (default EmptyString (dataLinesOf MoreSamples.queueTable !! 0))) ∅)).
  - apply (list_elem_of_lookup_2 _ 0). vm_compute. reflexivity.
  - vm_compute. reflexivity.
Defined.

(** X2. [loadConnectionTable] returns one row for each line after the
    first; the row of a line holds, for a key other than "__proto__", the
    value of the last field of the line whose column has that key, the
    column of the field at index [j] being the [j]-th name the header keeps
    after "rx_queue" and "tm->when" are dropped from it (the index itself
    where there is no such name, or where the name is empty); it holds
    nothing else, and nothing for the key "__proto__", even where that is
    the name of a column. *)
Theorem loadConnectionTable_aligns stdout header lines :
  JS.split "010" (trim stdout) = header :: lines ->
  length (loadConnectionTable stdout) = length lines /\
  forall n line, lines !! n = Some line ->
    exists row, loadConnectionTable stdout !! n = Some row /\
      forall key value,
        row !! key = Some value <->
        key <> "__proto__"%string /\
        exists j, fieldsOf line !! j = Some value /\
          columnKey (namesOf header) j = key /\
          forall j', j < j' < length (fieldsOf line) ->
                     columnKey (namesOf header) j' <> key.
Proof.
  intros Hsplit. unfold loadConnectionTable. rewrite Hsplit. split.
  - by rewrite length_map.
  - intros n line Hline. eexists. split.
    + rewrite list_lookup_fmap, Hline. reflexivity.
    + intros key value. rewrite fillRow_lookup. simpl. split.
      * intros [[Hempty _]|H]; [by rewrite lookup_empty in Hempty|done].
      * intros H. by right.
Qed.

Lemma loadConnectionTable_aligns_witness :
  exists row, loadConnectionTable MoreSamples.procNetTcp !! 0 = Some row /\
    row !! "inode"%string = Some "16423"%string /\
    row !! "st"%string = Some "0A"%string /\
    row !! "uid"%string = Some "0"%string.
Proof.
  destruct (loadConnectionTable_aligns MoreSamples.procNetTcp
              (default EmptyString (head (JS.split "010" (trim MoreSamples.procNetTcp))))
              (dataLinesOf MoreSamples.procNetTcp)) as [_ Hrows].
  { vm_compute. reflexivity. }
  destruct (Hrows 0 (default EmptyString (dataLinesOf MoreSamples.procNetTcp !! 0)))
    as (row & Hrow & Hfields).
  { vm_compute. reflexivity. }
  exists row. split; [exact Hrow|].
  split; [|split]; apply Hfields; (split; [discriminate|]).
  - exists 9. split; [vm_compute; reflexivity|]. split; [vm_compute; reflexivity|].
    intros j' Hj'. change (length _) with 17 in Hj'.
    do 17 (destruct j' as [|j']; [vm_compute; lia || discriminate|]). lia.
  - exists 3. split; [vm_compute; reflexivity|]. split; [vm_compute; reflexivity|].
    intros j' Hj'. change (length _) with 17 in Hj'.
    do 17 (destruct j' as [|j']; [vm_compute; lia || discriminate|]). lia.
  - exists 7. split; [vm_compute; reflexivity|]. split; [vm_compute; reflexivity|].
    intros j' Hj'. change (length _) with 17 in Hj'.
    do 17 (destruct j' as [|j']; [vm_compute; lia || discriminate|]). lia.
Defined.

End ConnectionTableFacts.

(** ** Listening ports and sockets read from the texts *)

Section CandidateFinderFacts.
Context {number : Type} `{EqDecision number} (toNumber : Z -> number).
Import JSString CandidateFinder.

Lemma localAddressFirst_before names : forall j,
  localAddressFirst names = true -> names !! j = Some "st"%string ->
  exists j', j' <= j /\ names !! j' = Some "local_address"%string.
Proof.
  unfold localAddressFirst.
  induction names as [|name names IH]; intros j Hfirst Hj; [by rewrite lookup_nil in Hj|].
  simpl in Hfirst.
  destruct (String.eqb name "st" || String.eqb name "local_address") eqn:Hname.
  - apply String.eqb_eq in Hfirst as ->. exists 0. split; [lia|done].
  - destruct j as [|j]; simpl in Hj.
    + injection Hj as ->. discriminate Hname.
    + destruct (IH j Hfirst Hj) as (j' & Hle & Hj'). exists (S j'). split; [lia|done].
Qed.

(** X3. When, in the header of every text, no column named "st" comes
    before the first column named "local_address" (as in /proc/net/tcp),
    [loadListeningPorts] returns for these texts, whatever their other
    lines are: no line makes it throw. *)
Theorem loadListeningPortsOf_returns (stdouts : list string) :
  Forall (fun stdout => localAddressFirst (columnsOf stdout) = true) stdouts ->
  is_Some (loadListeningPortsOf toNumber stdouts).
Proof.
  intros Hheaders. unfold loadListeningPortsOf, ListeningPorts.loadListeningPorts.
  assert (Hs : is_Some (mapM (ListeningPorts.toConnection toNumber)
                 (ListeningPorts.listeningRows (map loadConnectionTable stdouts)))).
  { apply mapM_is_Some_2, Forall_forall. intros row Hrow.
    apply toConnection_defined.
    unfold ListeningPorts.listeningRows in Hrow.
    apply list_elem_of_In, filter_In in Hrow as [Hin Hst].
    unfold ListeningPorts.isListening in Hst. apply bool_decide_eq_true in Hst.
    apply in_concat in Hin as (table & Htable & Hin).
    apply in_map_iff in Htable as (stdout & <- & Hstdout).
    rewrite Forall_forall in Hheaders.
    specialize (Hheaders stdout (proj2 (list_elem_of_In _ _) Hstdout)).
    rewrite loadConnectionTable_rows in Hin.
    apply in_map_iff in Hin as (line & <- & _).
    apply fillRow_lookup in Hst as [[Hempty _]|(_ & j & Hj & Hkey & _)];
      [by rewrite lookup_empty in Hempty|].
    simpl in Hkey. apply columnKey_named in Hkey; [|by left].
    destruct (localAddressFirst_before _ j Hheaders Hkey) as (j' & Hle & Hj').
    apply (fillRow_has_key _ _ j'); [|by apply columnKey_named; [right|]|done].
    apply lookup_lt_Some in Hj. lia. }
  destruct Hs as [conns ->]. eauto.
Qed.

Lemma execSocket_without_proc line :
  includes "/proc/" line = false -> execSocket line = None.
Proof.
  induction line as [|c rest IH]; intros Hno.
  - reflexivity.
  - cbn [includes] in Hno. cbn [execSocket]. unfold matchSocketAt.
    destruct (stripPrefix "/proc/" (String c rest)); [discriminate Hno|].
    by apply IH.
Qed.

(** X4. [getSockets] returns exactly when the pattern matches in every
    line of the trimmed text, then with one socket for each line; a line
    that does not contain "/proc/" makes it throw, and so does a text
    that is empty or only white space, whose single line is empty. *)
Theorem getSockets_one_per_line (stdout : string) :
  (is_Some (getSockets toNumber stdout) <->
   Forall (fun line => is_Some (execSocket line)) (JS.split "010" (trim stdout))) /\
  (forall sockets, getSockets toNumber stdout = Some sockets ->
     length sockets = length (JS.split "010" (trim stdout))) /\
  (forall line, line ∈ JS.split "010" (trim stdout) ->
     includes "/proc/" line = false -> getSockets toNumber stdout = None) /\
  (trim stdout = EmptyString -> getSockets toNumber stdout = None).
Proof.
  assert (Hsome : forall line, is_Some (toSocket toNumber line) <-> is_Some (execSocket line)).
  { intros line. unfold toSocket. destruct (execSocket line) as [[pidText inodeText]|].
    - split; eauto.
    - split; intros [x Hx]; discriminate Hx. }
  assert (Hiff : is_Some (getSockets toNumber stdout) <->
            Forall (fun line => is_Some (execSocket line)) (JS.split "010" (trim stdout))).
  { unfold getSockets. rewrite mapM_is_Some. apply Forall_iff. intros line. apply Hsome. }
  assert (Hline : forall line, line ∈ JS.split "010" (trim stdout) ->
            includes "/proc/" line = false -> getSockets toNumber stdout = None).
  { intros line Hin Hno. apply eq_None_not_Some. rewrite Hiff, Forall_forall.
    intros Hall. specialize (Hall line Hin).
    rewrite (execSocket_without_proc line Hno) in Hall. by destruct Hall. }
  split; [exact Hiff|]. split; [|split; [exact Hline|]].
  - intros sockets Hret. unfold getSockets in Hret. symmetry.
    by apply length_mapM in Hret.
  - intros Hempty. apply (Hline EmptyString); [|reflexivity].
    rewrite Hempty. simpl. apply list_elem_of_here.
Qed.

Lemma stripPrefix_app lit s : stripPrefix lit (lit +:+ s) = Some s.
Proof. induction lit as [|c lit IH]; simpl; [done|]. by rewrite Ascii.eqb_refl. Qed.

Lemma span_run p run rest :
  allChars p run = true ->
  match rest with String c _ => p c = false | EmptyString => True end ->
  span p (run +:+ rest) = (run, rest).
Proof.
  intros Hrun Hrest. induction run as [|c run IH]; simpl.
  - destruct rest as [|c rest]; [done|]. simpl. by rewrite Hrest.
  - simpl in Hrun. apply andb_true_iff in Hrun as [Hc Hrun].
    by rewrite Hc, (IH Hrun).
Qed.

Lemma many1_run p run rest :
  run <> EmptyString -> allChars p run = true ->
  match rest with String c _ => p c = false | EmptyString => True end ->
  many1 p (run +:+ rest) = Some (run, rest).
Proof.
  intros Hne Hrun Hrest. unfold many1. rewrite span_run by done.
  by destruct run.
Qed.

Lemma numeral_digits (d : Decimal.uint) :
  allChars isDigit (NilEmpty.string_of_uint d) = true.
Proof. induction d; simpl; done. Qed.

Lemma indexToString_digits i :
  indexToString i <> EmptyString /\ allChars isDigit (indexToString i) = true.
Proof.
  unfold indexToString. destruct (Nat.to_uint i) as [|d|d|d|d|d|d|d|d|d|d] eqn:Hd.
  all: split; [done|]; try reflexivity.
  all: apply (numeral_digits (_ d)).
Qed.

Lemma parseDigits_step R c rest acc d :
  JS.digitValue c = Some d -> (d <? R)%Z = true ->
  JS.parseDigits R (String c rest) acc
  = JS.parseDigits R rest (Some (match acc with Some a => (a * R + d)%Z | None => d end)).
Proof. intros Hd HR. simpl. by rewrite Hd, HR. Qed.

Ltac numeral_digit IH k :=
  rewrite (parseDigits_step 10 _ _ _ k) by reflexivity;
  match goal with
  | |- JS.parseDigits _ _ (Some ?z) = Some (Z.of_nat (Nat.of_uint_acc _ ?n)) =>
    replace z with (Z.of_nat n) by (rewrite Nat.tail_mul_spec; lia); apply IH
  end.

Lemma parseDigits_numeral (d : Decimal.uint) : forall a : nat,
  JS.parseDigits 10 (NilEmpty.string_of_uint d) (Some (Z.of_nat a))
  = Some (Z.of_nat (Nat.of_uint_acc d a)).
Proof.
  induction d as [|d IH|d IH|d IH|d IH|d IH|d IH|d IH|d IH|d IH|d IH]; intros a;
    cbn [NilEmpty.string_of_uint Nat.of_uint_acc]; [reflexivity|..].
  - numeral_digit IH 0%Z.
  - numeral_digit IH 1%Z.
  - numeral_digit IH 2%Z.
  - numeral_digit IH 3%Z.
  - numeral_digit IH 4%Z.
  - numeral_digit IH 5%Z.
  - numeral_digit IH 6%Z.
  - numeral_digit IH 7%Z.
  - numeral_digit IH 8%Z.
  - numeral_digit IH 9%Z.
Qed.

(** [parseInt] in base 10 of the decimal numeral of a number is the
    number. *)
Lemma parseInt_numeral (i : nat) :
  JS.parseInt toNumber (Some (indexToString i)) 10 = Some (toNumber (Z.of_nat i)).
Proof.
  rewrite <- (DecimalNat.Unsigned.of_to i) at 2.
  unfold indexToString, Nat.of_uint.
  destruct (Nat.to_uint i) as [|d|d|d|d|d|d|d|d|d|d]; [reflexivity|..].
  all: unfold JS.parseInt; cbn [NilZero.string_of_uint NilEmpty.string_of_uint
                                JS.trimStart Nat.of_uint_acc].
  all: match goal with
       | |- context [JS.isWhiteSpace ?c] =>
         change (JS.isWhiteSpace c) with false; cbv iota
       end.
  all: change (10 =? 0)%Z with false; change ((10 <? 2) || (36 <? 10))%Z with false;
       change (10 =? 16)%Z with false; cbv iota.
  all: match goal with
       | |- _ <$> JS.parseDigits 10 (String ?c ?rest) None = _ =>
         let k := eval vm_compute in (default 0%Z (JS.digitValue c)) in
         rewrite (parseDigits_step 10 c rest None k) by reflexivity;
         change (Some k) with (Some (Z.of_nat (Z.to_nat k)));
         rewrite parseDigits_numeral
       end.
  all: simpl; rewrite Z.mul_1_l; reflexivity.
Qed.

Lemma execSocket_matched s groups :
  matchSocketAt s = Some groups -> execSocket s = Some groups.
Proof. intros Hm. destruct s; cbn [execSocket]; by rewrite Hm. Qed.

Lemma matchSocketAt_needs_slash c s :
  Ascii.eqb c "/" = false -> matchSocketAt (String c s) = None.
Proof.
  intros Hc. unfold matchSocketAt. cbn [stripPrefix].
  rewrite Ascii.eqb_sym, Hc. reflexivity.
Qed.

Lemma execSocket_skips pre s :
  allChars (fun c => negb (Ascii.eqb c "/")) pre = true ->
  execSocket (pre +:+ s) = execSocket s.
Proof.
  induction pre as [|c pre IH]; intros Hpre; [done|].
  cbn [allChars] in Hpre. apply andb_true_iff in Hpre as [Hc Hpre].
  apply negb_true_iff in Hc.
  change (String c pre +:+ s) with (String c (pre +:+ s)).
  cbn [execSocket]. rewrite matchSocketAt_needs_slash by done.
  by apply IH.
Qed.

(** X5. A line that shows, after text without a slash, the link of the
    file descriptor [fd] of the process [p] to the socket with inode [n],
    the three numbers as decimal numerals, is read by [getSockets] as the
    pid [p] and the socket [n], whatever follows the closing bracket. *)
Theorem toSocket_reads_link (pre post : string) (p fd n : nat) :
  allChars (fun c => negb (Ascii.eqb c "/")) pre = true ->
  toSocket toNumber
    (pre +:+ "/proc/" +:+ indexToString p +:+ "/fd/" +:+ indexToString fd
         +:+ " -> socket:[" +:+ indexToString n +:+ "]" +:+ post)
  = Some {| pid := Some (toNumber (Z.of_nat p));
            socket := Some (toNumber (Z.of_nat n)) |}.
Proof.
  intros Hpre. unfold toSocket. rewrite execSocket_skips by done.
  destruct (indexToString_digits p) as [Hp1 Hp2].
  destruct (indexToString_digits fd) as [Hf1 Hf2].
  destruct (indexToString_digits n) as [Hn1 Hn2].
  erewrite execSocket_matched.
  2:{ unfold matchSocketAt. rewrite stripPrefix_app.
      rewrite many1_run by done. rewrite stripPrefix_app.
      rewrite many1_run by done. rewrite stripPrefix_app.
      rewrite many1_run by done. rewrite stripPrefix_app. reflexivity. }
  cbv beta iota. by rewrite !parseInt_numeral.
Qed.

Lemma lastWith_None {A K : Type} `{EqDecision K} (k : A -> K) key (l : list A) :
  lastWith k key l = None <-> forall y, y ∈ l -> k y <> key.
Proof.
  induction l as [|a l IH]; simpl.
  - split; [|done]. intros _ y Hy. by apply elem_of_nil in Hy.
  - destruct (lastWith k key l) as [y|].
    + split; [done|]. intros Hall.
      assert (Hn : Some y = None) by (apply IH; intros z Hz; apply Hall; by right).
      discriminate Hn.
    + destruct (decide (k a = key)) as [Ha|Ha].
      * split; [done|]. intros Hall. exfalso. apply (Hall a); [left|done].
      * split; [|done]. intros _ y Hy.
        apply elem_of_cons in Hy as [->|Hy]; [done|]. by apply IH.
Qed.

Lemma lastWith_Some {A K : Type} `{EqDecision K} (k : A -> K) key (l : list A) x :
  lastWith k key l = Some x <-> isLastWith k key l x.
Proof.
  split.
  - revert x. induction l as [|a l IH]; intros x; simpl; [done|].
    destruct (lastWith k key l) as [y|] eqn:Hlast.
    + intros [= <-]. destruct (IH y eq_refl) as (l1 & l2 & -> & Hk & Hl2).
      by exists (a :: l1), l2.
    + destruct (decide (k a = key)) as [Ha|Ha]; [|done]. intros [= <-].
      exists [], l. split; [done|]. split; [done|]. by apply lastWith_None.
  - intros (l1 & l2 & -> & Hk & Hl2). induction l1 as [|b l1 IH]; simpl.
    + rewrite (proj2 (lastWith_None k key l2) Hl2). by rewrite decide_True.
    + by rewrite IH.
Qed.

Lemma lastWith_spec {A K : Type} `{EqDecision K} (k : A -> K) key (l : list A) :
  (forall x, lastWith k key l = Some x <-> isLastWith k key l x) /\
  (lastWith k key l = None <-> forall y, y ∈ l -> k y <> key).
Proof. split; [intros x; apply lastWith_Some|apply lastWith_None]. Qed.

Local Notation Conn := (@ListeningPorts.Connection number).

Lemma candidateOf_spec sockets processes (connection : Conn) :
  (candidateOf sockets processes connection = None <->
   exists s, isLastWith socket (ListeningPorts.socket connection) sockets s /\
     forall process, process ∈ processes -> Some (process_pid process) <> pid s) /\
  (forall found c, candidateOf sockets processes connection = Some found ->
     c ∈ found <->
     exists s process,
       isLastWith socket (ListeningPorts.socket connection) sockets s /\
       isLastWith (fun process => Some (process_pid process)) (pid s) processes process /\
       matchesServer (cmd process) = false /\
       includes "out/vs/server/main.js" (cmd process) = false /\
       c = {| candidate_port := ListeningPorts.port connection;
              detail := cmd process |}).
Proof.
  assert (HprocSome : forall p process,
            processOf processes p = Some process <->
            isLastWith (fun process => Some (process_pid process)) p processes process).
  { intros p process. unfold processOf. destruct p as [n|].
    - rewrite (proj1 (lastWith_spec process_pid n processes)).
      unfold isLastWith. split; intros (l1 & l2 & Heq & Hk & Hl2); exists l1, l2.
      + split; [done|]. split; [by f_equal|]. intros y Hy [= Hn]. by apply (Hl2 y).
      + split; [done|]. injection Hk as Hk. split; [done|].
        intros y Hy Hn. apply (Hl2 y Hy). by f_equal.
    - split; [done|]. intros (l1 & l2 & _ & Hk & _). discriminate Hk. }
  assert (HprocNone : forall p,
            processOf processes p = None <->
            forall process, process ∈ processes -> Some (process_pid process) <> p).
  { intros p. unfold processOf. destruct p as [n|].
    - rewrite (proj2 (lastWith_spec process_pid n processes)).
      split; intros Hall y Hy; specialize (Hall y Hy); congruence.
    - split; [|done]. intros _ process _. discriminate. }
  pose proof (lastWith_spec socket (ListeningPorts.socket connection) sockets)
    as [HsockSome HsockNone].
  unfold candidateOf, socketOf.
  destruct (lastWith socket (ListeningPorts.socket connection) sockets) as [s|] eqn:Hs.
  - assert (Hunique : forall s', isLastWith socket (ListeningPorts.socket connection)
                                   sockets s' -> s' = s).
    { intros s' Hs'. apply HsockSome in Hs'. congruence. }
    destruct (processOf processes (pid s)) as [process|] eqn:Hp.
    + assert (Hunique' : forall process',
                isLastWith (fun process => Some (process_pid process)) (pid s)
                  processes process' -> process' = process).
      { intros process' Hp'. apply HprocSome in Hp'. congruence. }
      split.
      * split; [by destruct (isCandidateCommand (cmd process))|].
        intros (s' & Hs' & Hnone). apply Hunique in Hs' as ->.
        apply HprocNone in Hnone. congruence.
      * intros found c Hfound. unfold isCandidateCommand in Hfound.
        destruct (matchesServer (cmd process)) eqn:Hserver;
          [|destruct (includes "out/vs/server/main.js" (cmd process)) eqn:Hmain];
          simpl in Hfound; injection Hfound as <-.
        -- split; [by intros ?%elem_of_nil|].
           intros (s' & process' & Hs' & Hp' & Hno & _).
           apply Hunique in Hs' as ->. apply Hunique' in Hp' as ->. congruence.
        -- split; [by intros ?%elem_of_nil|].
           intros (s' & process' & Hs' & Hp' & _ & Hno & _).
           apply Hunique in Hs' as ->. apply Hunique' in Hp' as ->. congruence.
        -- rewrite list_elem_of_singleton. split.
           ++ intros ->. exists s, process. split; [by apply HsockSome|].
              split; [by apply HprocSome|]. done.
           ++ intros (s' & process' & Hs' & Hp' & _ & _ & ->).
              apply Hunique in Hs' as ->. by apply Hunique' in Hp' as ->.
    + split.
      * split; [|done]. intros _. exists s. split; [by apply HsockSome|].
        by apply HprocNone.
      * intros found c Hfound. discriminate Hfound.
  - pose proof (proj1 HsockNone eq_refl) as Hnone. split.
    + split; [done|]. intros (s & (l1 & l2 & -> & Hk & _) & _). exfalso.
      apply (Hnone s); [|done]. apply elem_of_app. right. left.
    + intros found c [= <-]. split; [by intros ?%elem_of_nil|].
      intros (s & process & (l1 & l2 & -> & Hk & _) & _). exfalso.
      apply (Hnone s); [|done]. apply elem_of_app. right. left.
Qed.

(** X6. The end of [$findCandidatePorts] throws exactly when the socket
    of some listening connection is listed for a process (the last line
    with that socket counts) whose pid is not among the processes read
    from /proc: one such socket makes the whole call fail. *)
Theorem candidatePorts_throws processes (connections : list Conn) sockets :
  candidatePorts processes connections sockets = None <->
  exists connection s,
    connection ∈ connections /\
    isLastWith socket (ListeningPorts.socket connection) sockets s /\
    forall process, process ∈ processes -> Some (process_pid process) <> pid s.
Proof.
  unfold candidatePorts.
  destruct (mapM (candidateOf sockets processes) connections) as [found|] eqn:HM.
  - split; [done|]. intros (connection & s & Hin & Hs & Hnone). exfalso.
    assert (Hsome : is_Some (mapM (candidateOf sockets processes) connections)) by eauto.
    apply mapM_is_Some_1 in Hsome. rewrite Forall_forall in Hsome.
    destruct (Hsome connection Hin) as [x Hx].
    assert (Hthrows : candidateOf sockets processes connection = None).
    { apply candidateOf_spec. eauto. }
    simpl in Hx. congruence.
  - split; [|done]. intros _. apply mapM_None_1, Exists_exists in HM
      as (connection & Hin & Hnone).
    apply candidateOf_spec in Hnone as (s & Hs & Hp). eauto.
Qed.

(** X7. When it returns, the candidates are exactly the ports of the
    listening connections whose socket is listed for a process (the last
    line with the socket, and the last process with its pid) whose
    command line neither matches the server pattern nor contains
    "out/vs/server/main.js", each with that command line as detail;
    connections whose socket is not listed are left out. *)
Theorem candidatePorts_candidates processes (connections : list Conn) sockets candidates :
  candidatePorts processes connections sockets = Some candidates ->
  forall c, c ∈ candidates <->
    exists connection s process,
      connection ∈ connections /\
      isLastWith socket (ListeningPorts.socket connection) sockets s /\
      isLastWith (fun process => Some (process_pid process)) (pid s) processes process /\
      matchesServer (cmd process) = false /\
      includes "out/vs/server/main.js" (cmd process) = false /\
      c = {| candidate_port := ListeningPorts.port connection;
             detail := cmd process |}.
Proof.
  unfold candidatePorts.
  destruct (mapM (candidateOf sockets processes) connections) as [found|] eqn:HM;
    [|done].
  intros [= <-] c. apply mapM_Some_1 in HM. rewrite list_elem_of_In, in_concat. split.
  - intros (part & Hpart & Hc). apply list_elem_of_In, list_elem_of_lookup in Hpart as [i Hi].
    destruct (Forall2_lookup_r _ _ _ _ _ HM Hi) as (connection & Hconn & Hfound).
    apply list_elem_of_In in Hc.
    apply (proj2 (candidateOf_spec sockets processes connection) part c Hfound) in Hc.
    destruct Hc as (s & process & H). exists connection, s, process.
    split; [by eapply list_elem_of_lookup_2|done].
  - intros (connection & s & process & Hin & H).
    apply list_elem_of_lookup in Hin as [i Hi].
    destruct (Forall2_lookup_l _ _ _ _ _ HM Hi) as (part & Hpart & Hfound).
    exists part. split; [by eapply list_elem_of_In, list_elem_of_lookup_2|].
    apply list_elem_of_In.
    apply (proj2 (candidateOf_spec sockets processes connection) part c Hfound). eauto.
Qed.

Lemma stripPrefix_Some lit : forall s r, stripPrefix lit s = Some r -> s = lit +:+ r.
Proof.
  induction lit as [|c lit IH]; intros s r; simpl.
  - by intros [= ->].
  - destruct s as [|d s]; [done|]. destruct (Ascii.eqb_spec c d) as [->|]; [|done].
    intros Hs. by rewrite (IH s r Hs).
Qed.

Lemma span_Some p : forall s run rest,
  span p s = (run, rest) -> s = run +:+ rest /\ allChars p run = true.
Proof.
  induction s as [|c s IH]; intros run rest; simpl.
  - by intros [= <- <-].
  - destruct (p c) eqn:Hc.
    + destruct (span p s) as [run' rest'] eqn:Hs. intros [= <- <-].
      destruct (IH run' rest' eq_refl) as [-> Hrun]. simpl. by rewrite Hc.
    + by intros [= <- <-].
Qed.

Lemma many1_Some p s run rest :
  many1 p s = Some (run, rest) ->
  s = run +:+ rest /\ run <> EmptyString /\ allChars p run = true.
Proof.
  unfold many1. destruct (span p s) as [run' rest'] eqn:Hs.
  destruct run' as [|c run']; [done|]. intros [= <- <-].
  apply span_Some in Hs as [-> Hrun]. done.
Qed.

(** X8. The pattern of [$findCandidatePorts] is written in a string, so
    that the backslashes before the dot and the dashes are dropped: a
    command line matches exactly when it contains "vscode-server-", one
    or more letters and "/bin" after some character that is not a line
    terminator.  That character need not be a dot, and a command line
    that has the directory name only at its very start does not match. *)
Theorem matchesServer_spec (command : string) :
  matchesServer command = true <->
  exists pre c letters post,
    command = pre +:+ String c ("vscode-server-" +:+ letters +:+ "/bin" +:+ post) /\
    isLineTerminator c = false /\
    letters <> EmptyString /\ allChars isLetter letters = true.
Proof.
  split.
  - induction command as [|a rest IH]; [done|].
    cbn [matchesServer]. intros [Hat|Hlater]%orb_true_iff.
    + unfold matchServerAt in Hat. apply andb_true_iff in Hat as [Hc Hat].
      apply negb_true_iff in Hc.
      destruct (stripPrefix "vscode-server-" rest) as [s2|] eqn:H1; [|done].
      destruct (many1 isLetter s2) as [[letters s3]|] eqn:H2; [|done].
      destruct (stripPrefix "/bin" s3) as [post|] eqn:H3; [|done].
      apply stripPrefix_Some in H1 as ->. apply many1_Some in H2 as (-> & Hne & Hall).
      apply stripPrefix_Some in H3 as ->.
      by exists EmptyString, a, letters, post.
    + destruct (IH Hlater) as (pre & c & letters & post & -> & H).
      by exists (String a pre), c, letters, post.
  - intros (pre & c & letters & post & -> & Hc & Hne & Hall).
    induction pre as [|a pre IH].
    + change (EmptyString +:+ ?s) with s. cbn [matchesServer].
      apply orb_true_iff. left. unfold matchServerAt. rewrite Hc.
      rewrite stripPrefix_app. rewrite many1_run by done.
      by rewrite stripPrefix_app.
    + change (String a pre +:+ ?s) with (String a (pre +:+ s)).
      cbn [matchesServer]. rewrite IH. apply orb_true_r.
Qed.

Lemma split_no_sep sep s :
  allChars (fun c => negb (Ascii.eqb c sep)) s = true -> JS.split sep s = [s].
Proof.
  induction s as [|c s IH]; simpl; [done|].
  intros [Hc Hs]%andb_true_iff. apply negb_true_iff in Hc. by rewrite Hc, (IH Hs).
Qed.

Lemma split_at_sep sep a b :
  allChars (fun c => negb (Ascii.eqb c sep)) a = true ->
  JS.split sep (a +:+ String sep b) = a :: JS.split sep b.
Proof.
  induction a as [|c a IH]; simpl.
  - intros _. by rewrite Ascii.eqb_refl.
  - intros [Hc Ha]%andb_true_iff. apply negb_true_iff in Hc. by rewrite Hc, (IH Ha).
Qed.

Lemma hexDigit_value c :
  isHexDigit c = true ->
  (exists d, JS.digitValue c = Some d /\ (0 <= d < 16)%Z) /\
  Ascii.eqb c ":" = false.
Proof.
  intros H.
  destruct c as [[|] [|] [|] [|] [|] [|] [|] [|]]; vm_compute in H;
    try discriminate H; clear H;
    (split; [eexists; split; [reflexivity|]|reflexivity]);
    vm_compute; (split; [intros Hgt; discriminate Hgt|reflexivity]).
Qed.

Lemma parseDigits_hex s : forall acc B,
  allChars isHexDigit s = true ->
  match acc with
  | Some a => (0 <= a < B)%Z
  | None => B = 1%Z /\ s <> EmptyString
  end ->
  exists v, JS.parseDigits 16 s acc = Some v /\
            (0 <= v < B * 16 ^ Z.of_nat (String.length s))%Z.
Proof.
  induction s as [|c s IH]; intros acc B Hs Hacc.
  - destruct acc as [a|]; [|by destruct Hacc]. exists a. simpl. split; [done|lia].
  - cbn [allChars] in Hs. apply andb_true_iff in Hs as [Hc Hs].
    destruct (hexDigit_value c Hc) as [(d & Hd & Hrange) _].
    rewrite (parseDigits_step 16 c s acc d Hd) by (apply Z.ltb_lt; lia).
    destruct (IH (Some (match acc with Some a => (a * 16 + d)%Z | None => d end))
                 (16 * B)%Z Hs) as (v & Hv & Hbound).
    { destruct acc as [a|]; [lia|]. destruct Hacc as [-> _]. lia. }
    exists v. split; [done|].
    cbn [String.length]. rewrite Nat2Z.inj_succ, Z.pow_succ_r by lia. lia.
Qed.

Lemma parseInt_hex c rest :
  isHexDigit c = true ->
  JS.parseInt toNumber (Some (String c rest)) 16
  = (fun mv => toNumber (1 * mv)%Z)
      <$> JS.parseDigits 16 (JS.stripHexPrefix (String c rest)) None.
Proof.
  intros H.
  destruct c as [[|] [|] [|] [|] [|] [|] [|] [|]]; vm_compute in H;
    try discriminate H; reflexivity.
Qed.

Lemma stripHexPrefix_hex s :
  allChars isHexDigit s = true -> JS.stripHexPrefix s = s.
Proof.
  destruct s as [|c [|c2 r]]; [done| |].
  - intros _. destruct c as [[|] [|] [|] [|] [|] [|] [|] [|]]; reflexivity.
  - cbn [allChars]. intros [_ [H2 _]%andb_true_iff]%andb_true_iff.
    destruct c as [[|] [|] [|] [|] [|] [|] [|] [|]]; try reflexivity.
    destruct c2 as [[|] [|] [|] [|] [|] [|] [|] [|]]; try reflexivity;
      vm_compute in H2; discriminate H2.
Qed.

(** X9. The address of a listening row: when [local_address] has no
    colon, the port of the entry is NaN and its ip is the whole field;
    when it is an address without colon, a colon and one or more
    hexadecimal digits, the ip is the address and the port is not NaN: it
    is the Number that an integer [v] with [0 <= v < 16 ^ n] is converted
    to, [n] being the number of digits.  The bound is on the integer that
    is read; its conversion to a Number can round it (up to [16 ^ n]
    itself, once there are more digits than a Number holds exactly). *)
Theorem toConnection_address (row : ListeningPorts.Row) (local_address : string) :
  row !! "local_address"%string = Some local_address ->
  (allChars (fun c => negb (Ascii.eqb c ":")) local_address = true ->
   exists c, ListeningPorts.toConnection toNumber row = Some c /\
     ListeningPorts.ip c = local_address /\ ListeningPorts.port c = None) /\
  (forall address hex,
     local_address = address +:+ String ":" hex ->
     allChars (fun c => negb (Ascii.eqb c ":")) address = true ->
     hex <> EmptyString -> allChars isHexDigit hex = true ->
     exists c v, ListeningPorts.toConnection toNumber row = Some c /\
       ListeningPorts.ip c = address /\
       ListeningPorts.port c = Some (toNumber v) /\
       (0 <= v < 16 ^ Z.of_nat (String.length hex))%Z).
Proof.
  intros Hrow.
  assert (Hconn : ListeningPorts.toConnection toNumber row
            = Some {| ListeningPorts.socket :=
                        JS.parseInt toNumber (row !! "inode"%string) 10;
                      ListeningPorts.ip := hd EmptyString (JS.split ":" local_address);
                      ListeningPorts.port :=
                        JS.parseInt toNumber
                          (nth_error (JS.split ":" local_address) 1) 16 |}).
  { unfold ListeningPorts.toConnection. by rewrite Hrow. }
  split.
  - intros Hno. eexists. split; [exact Hconn|].
    cbn [ListeningPorts.ip ListeningPorts.port].
    rewrite (split_no_sep _ _ Hno). split; reflexivity.
  - intros address hex Heq Haddress Hne Hhex.
    assert (Hnocolon : allChars (fun c => negb (Ascii.eqb c ":")) hex = true).
    { clear Hne Heq. induction hex as [|c hex IH]; [done|]. cbn [allChars] in *.
      apply andb_true_iff in Hhex as [Hc Hhex].
      destruct (hexDigit_value c Hc) as [_ ->]. by apply IH. }
    destruct (parseDigits_hex hex None 1 Hhex) as (v & Hv & Hbound); [done|].
    eexists. exists v. split; [exact Hconn|].
    cbn [ListeningPorts.ip ListeningPorts.port]. rewrite Heq.
    rewrite (split_at_sep _ _ _ Haddress), (split_no_sep _ _ Hnocolon).
    split; [reflexivity|]. split; [|lia].
    cbn [nth_error]. destruct hex as [|c hex]; [done|].
    cbn [allChars] in Hhex. pose proof Hhex as [Hc _]%andb_true_iff.
    rewrite (parseInt_hex c hex Hc), (stripHexPrefix_hex (String c hex) Hhex), Hv.
    simpl. by rewrite Z.mul_1_l.
Qed.

End CandidateFinderFacts.

Lemma toConnection_address_witness :
  (exists c, ListeningPorts.toConnection (fun z : Z => z)
               (MoreSamples.addressRow "localhost") = Some c /\
     ListeningPorts.ip c = "localhost"%string /\ ListeningPorts.port c = None) /\
  (exists c v, ListeningPorts.toConnection (fun z : Z => z)
                 (MoreSamples.addressRow "0100007F:1F90") = Some c /\
     ListeningPorts.ip c = "0100007F"%string /\
     ListeningPorts.port c = Some v /\ (0 <= v < 16 ^ 4)%Z).
Proof.
  split.
  - apply (proj1 (toConnection_address (fun z : Z => z)
                    (MoreSamples.addressRow "localhost") "localhost" eq_refl)).
    reflexivity.
  - apply (proj2 (toConnection_address (fun z : Z => z)
                    (MoreSamples.addressRow "0100007F:1F90") "0100007F:1F90" eq_refl)
                 "0100007F"%string "1F90"%string);
      [reflexivity|reflexivity|discriminate|reflexivity].
Defined.

Lemma candidatePorts_throws_witness :
  CandidateFinder.candidatePorts (tail MoreSamples.processList)
    MoreSamples.connectionList MoreSamples.socketList = None.
Proof.
  apply candidatePorts_throws.
  exists (ListeningPorts.mkConnection (Some 16423%Z) "00000000" (Some 22%Z)),
         (CandidateFinder.mkSocket (Some 123%Z) (Some 16423%Z)).
  split; [apply list_elem_of_here|]. split.
  - exists [], [CandidateFinder.mkSocket (Some 77%Z) (Some 20001%Z)].
    split; [reflexivity|]. split; [reflexivity|].
    intros y Hy. apply list_elem_of_singleton in Hy as ->. discriminate.
  - intros process Hp. apply list_elem_of_singleton in Hp as ->. discriminate.
Defined.

Lemma candidatePorts_candidates_witness :
  exists connection s process,
    connection ∈ MoreSamples.connectionList /\
    CandidateFinder.isLastWith CandidateFinder.socket
      (ListeningPorts.socket connection) MoreSamples.socketList s /\
    CandidateFinder.isLastWith
      (fun process => Some (CandidateFinder.process_pid process))
      (CandidateFinder.pid s) MoreSamples.processList process /\
    CandidateFinder.matchesServer (CandidateFinder.cmd process) = false /\
    JSString.includes "out/vs/server/main.js" (CandidateFinder.cmd process) = false /\
    CandidateFinder.mkCandidate (Some 8080%Z) "node server.js"
    = CandidateFinder.mkCandidate (ListeningPorts.port connection)
                                  (CandidateFinder.cmd process).
Proof.
  apply (candidatePorts_candidates MoreSamples.processList MoreSamples.connectionList
           MoreSamples.socketList
           [CandidateFinder.mkCandidate (Some 8080%Z) "node server.js"]).
  - vm_compute. reflexivity.
  - apply list_elem_of_here.
Defined.

Lemma matchesServer_spec_witness :
  CandidateFinder.matchesServer "Xvscode-server-insiders/bin/node" = true /\
  ~ exists pre c letters post,
      "vscode-server-insiders/bin/node"%string
      = pre +:+ String c ("vscode-server-" +:+ letters +:+ "/bin" +:+ post) /\
      JSString.isLineTerminator c = false /\
      letters <> EmptyString /\ JSString.allChars JSString.isLetter letters = true.
Proof.
  split.
  - apply matchesServer_spec.
    exists EmptyString, "X"%char, "insiders"%string, "/node"%string.
    split; [reflexivity|]. split; [reflexivity|]. split; [discriminate|reflexivity].
  - intros H. apply matchesServer_spec in H. vm_compute in H. discriminate H.
Defined.

Lemma toSocket_reads_link_witness :
  CandidateFinder.toSocket (fun z : Z => z)
    "lrwx------ 1 root root 64 Nov  1 10:00 /proc/123/fd/4 -> socket:[4242]"
  = Some (CandidateFinder.mkSocket (Some 123%Z) (Some 4242%Z)).
Proof.
  apply (toSocket_reads_link (fun z : Z => z)
           "lrwx------ 1 root root 64 Nov  1 10:00 " EmptyString 123 4 4242).
  vm_compute. reflexivity.
Defined.

Lemma loadListeningPortsOf_returns_witness :
  is_Some (CandidateFinder.loadListeningPortsOf (fun z : Z => z)
             [MoreSamples.procNetTcp; EmptyString]).
Proof.
  apply loadListeningPortsOf_returns.
  apply List.Forall_cons; [vm_compute; reflexivity|].
  apply List.Forall_cons; [vm_compute; reflexivity|]. apply List.Forall_nil.
Defined.

Lemma getSockets_one_per_line_witness :
  CandidateFinder.getSockets (fun z : Z => z) MoreSamples.blankText = None /\
  length MoreSamples.socketList = 2.
Proof.
  destruct (getSockets_one_per_line (fun z : Z => z) MoreSamples.blankText)
    as (_ & _ & _ & Hblank).
  destruct (getSockets_one_per_line (fun z : Z => z) MoreSamples.procSockets)
    as (_ & Hlength & _ & _).
  split.
  - apply Hblank. vm_compute. reflexivity.
  - rewrite (Hlength MoreSamples.socketList); vm_compute; reflexivity.
Defined.
